(** * The scull FIFO character driver (driver/scull.c)

    A shallow embedding of the driver's read, write and ioctl entry points.
    The file-scope variables of scull.c form one record of globals; a call in
    progress is a thread with a program point (named after the source line it
    is about to execute) and its local variables; [step] executes one
    statement.  A thread that sleeps in [down_interruptible] has no step
    until the semaphore is released or a signal is delivered.

    Pointers are modelled by their addresses (in [Z]), pointer difference by
    subtraction, kernel memory by a map from addresses to bytes.  A
    statement is one step; the two increment loops, which touch nothing but
    the pointer they move and their counter, are one step each.  What
    kmalloc handed out is recorded with its size, so that a property can say
    which copies stay inside it. *)

From Stdlib Require Import ZArith Bool String List Lia.
From Stdlib Require Import Strings.Byte.
Import ListNotations.
Local Open Scope Z_scope.

(** ** Kernel interfaces used by the driver *)

Module Linux.

(** <linux/errno.h> *)
Definition EINTR : Z := 4.
Definition EFAULT : Z := 14.
Definition ENOTTY : Z := 25.

(** [size_t] is a 64-bit unsigned integer; an [int] compared with or
    assigned to a [size_t] is converted modulo 2^64. *)
Definition size_t_of_int (z : Z) : Z := z mod 2 ^ 64.

(** [int] has 32 bits.  The kernel is compiled with -fno-strict-overflow:
    an [int] that is incremented past [INT_MAX] wraps around to INT_MIN. *)
Definition INT_MAX : Z := 2 ^ 31 - 1.

Definition int_of_Z (z : Z) : Z := (z + 2 ^ 31) mod 2 ^ 32 - 2 ^ 31.

(** [unsigned int]: an [int] compared with one is converted modulo 2^32. *)
Definition uint_of_int (z : Z) : Z := z mod 2 ^ 32.

(** sizeof(ssize_t) *)
Definition sizeof_ssize_t : Z := 8.

(** <linux/semaphore.h>: a counting semaphore, whose [count] is an
    [unsigned int].  Sleeping tasks are not recorded in the count: they are
    the threads that stand before a [down_interruptible] which cannot
    proceed.  [up] adds one to the count, which lets one of them proceed. *)
Record semaphore : Type := { count : Z }.

Definition sema_init (val : Z) : semaphore := {| count := val |}.

Definition up (sem : semaphore) : semaphore := {| count := count sem + 1 |}.

(** What the environment contributes to one statement of a call. *)
Inductive event : Type :=
| Run                                (* nothing special happens *)
| Signal                             (* a signal is pending for the caller *)
| Fault (stored : list byte).        (* the user copy cannot complete;
                                        [stored] is what it had for the
                                        kernel memory when it gave up, of
                                        which no more than the count it
                                        was asked for gets there *)

(** [down_interruptible]: with a positive count the semaphore is taken at
    once and 0 is returned; otherwise the caller sleeps ([None]) unless a
    signal is pending, in which case -EINTR is returned and the count is
    left alone. *)
Definition down_interruptible (sem : semaphore) (e : event)
  : option (semaphore * Z) :=
  if 0 <? count sem then Some ({| count := count sem - 1 |}, 0)
  else match e with
       | Signal => Some (sem, - EINTR)
       | _ => None
       end.

(** <asm-generic/ioctl.h>: the fields of an ioctl command word. *)
Definition _IOC_NR (cmd : Z) : Z := Z.land cmd 255.
Definition _IOC_TYPE (cmd : Z) : Z := Z.land (Z.shiftr cmd 8) 255.
Definition _IOC_SIZE (cmd : Z) : Z := Z.land (Z.shiftr cmd 16) 16383.
Definition _IOC_DIR (cmd : Z) : Z := Z.land (Z.shiftr cmd 30) 3.
Definition _IOC_WRITE : Z := 1.
Definition _IOC_READ : Z := 2.
Definition VERIFY_READ : Z := 0.
Definition VERIFY_WRITE : Z := 1.

End Linux.
Import Linux.

(** ** Kernel memory

    The map covers the whole of the kernel's address space: a copy that
    leaves the block of the FIFO reads or overwrites what lies next to it,
    which is not the driver's.  Which bytes are the driver's is recorded in
    [kalloc] (below), with the size kmalloc was asked for. *)

Definition memory : Type := Z -> byte.

Fixpoint load (m : memory) (a : Z) (n : nat) : list byte :=
  match n with
  | O => []
  | S n' => m a :: load m (a + 1) n'
  end.

Fixpoint store (m : memory) (a : Z) (bs : list byte) : memory :=
  match bs with
  | [] => m
  | b :: bs' => store (fun x => if x =? a then b else m x) (a + 1) bs'
  end.

(** ** The driver's file-scope variables *)

Record globals : Type := {
  scull_fifo_elemsz : Z;           (* SIZE, module parameter *)
  scull_fifo_size : Z;             (* N, module parameter *)
  start : Z;                       (* static char *start *)
  end_ : Z;                        (* static char *end *)
  orig : Z;                        (* static char *orig *)
  queue_empty : semaphore;
  queue_full : semaphore;
  lock : semaphore;
  kmem : memory;                   (* what the three pointers point into *)
  kalloc : list (Z * Z);           (* what kmalloc handed out: address, size *)
  klog : list string               (* messages passed to printk *)
}.

Definition set_start (v : Z) (g : globals) : globals :=
  {| scull_fifo_elemsz := scull_fifo_elemsz g;
     scull_fifo_size := scull_fifo_size g;
     start := v; end_ := end_ g; orig := orig g;
     queue_empty := queue_empty g; queue_full := queue_full g;
     lock := lock g; kmem := kmem g; kalloc := kalloc g;
     klog := klog g |}.

Definition set_end (v : Z) (g : globals) : globals :=
  {| scull_fifo_elemsz := scull_fifo_elemsz g;
     scull_fifo_size := scull_fifo_size g;
     start := start g; end_ := v; orig := orig g;
     queue_empty := queue_empty g; queue_full := queue_full g;
     lock := lock g; kmem := kmem g; kalloc := kalloc g;
     klog := klog g |}.

Definition set_queue_empty (v : semaphore) (g : globals) : globals :=
  {| scull_fifo_elemsz := scull_fifo_elemsz g;
     scull_fifo_size := scull_fifo_size g;
     start := start g; end_ := end_ g; orig := orig g;
     queue_empty := v; queue_full := queue_full g;
     lock := lock g; kmem := kmem g; kalloc := kalloc g;
     klog := klog g |}.

Definition set_queue_full (v : semaphore) (g : globals) : globals :=
  {| scull_fifo_elemsz := scull_fifo_elemsz g;
     scull_fifo_size := scull_fifo_size g;
     start := start g; end_ := end_ g; orig := orig g;
     queue_empty := queue_empty g; queue_full := v;
     lock := lock g; kmem := kmem g; kalloc := kalloc g;
     klog := klog g |}.

Definition set_lock (v : semaphore) (g : globals) : globals :=
  {| scull_fifo_elemsz := scull_fifo_elemsz g;
     scull_fifo_size := scull_fifo_size g;
     start := start g; end_ := end_ g; orig := orig g;
     queue_empty := queue_empty g; queue_full := queue_full g;
     lock := v; kmem := kmem g; kalloc := kalloc g;
     klog := klog g |}.

Definition set_kmem (v : memory) (g : globals) : globals :=
  {| scull_fifo_elemsz := scull_fifo_elemsz g;
     scull_fifo_size := scull_fifo_size g;
     start := start g; end_ := end_ g; orig := orig g;
     queue_empty := queue_empty g; queue_full := queue_full g;
     lock := lock g; kmem := v; kalloc := kalloc g; klog := klog g |}.

Definition set_kalloc (v : list (Z * Z)) (g : globals) : globals :=
  {| scull_fifo_elemsz := scull_fifo_elemsz g;
     scull_fifo_size := scull_fifo_size g;
     start := start g; end_ := end_ g; orig := orig g;
     queue_empty := queue_empty g; queue_full := queue_full g;
     lock := lock g; kmem := kmem g; kalloc := v; klog := klog g |}.

Definition printk (msg : string) (g : globals) : globals :=
  {| scull_fifo_elemsz := scull_fifo_elemsz g;
     scull_fifo_size := scull_fifo_size g;
     start := start g; end_ := end_ g; orig := orig g;
     queue_empty := queue_empty g; queue_full := queue_full g;
     lock := lock g; kmem := kmem g; kalloc := kalloc g;
     klog := klog g ++ [msg] |}.

(** ** Module initialisation *)

(** The variables as the loader leaves them: the two parameters set, every
    other static zeroed.  [m] is the content of kernel memory. *)
Definition module_load (elemsz size : Z) (m : memory) : globals :=
  {| scull_fifo_elemsz := elemsz; scull_fifo_size := size;
     start := 0; end_ := 0; orig := 0;
     queue_empty := {| count := 0 |}; queue_full := {| count := 0 |};
     lock := {| count := 0 |}; kmem := m; kalloc := []; klog := [] |}.

(** The argument of kmalloc at line 284,
    [scull_fifo_size*(sizeof(ssize_t) + scull_fifo_elemsz)], computed in
    [size_t]. *)
Definition fifo_bytes (g : globals) : Z :=
  (size_t_of_int (scull_fifo_size g)
   * ((sizeof_ssize_t + size_t_of_int (scull_fifo_elemsz g)) mod 2 ^ 64))
  mod 2 ^ 64.

(** [scull_init_module].  [region] and [cdev] are the results of registering
    the device number and the character device, [fifo_array] the address
    returned by kmalloc (0 when it fails): a block of [fifo_bytes] bytes.
    Only [start] and [end] are assigned: [orig] keeps the value it had. *)
Definition scull_init_module (region cdev fifo_array : Z) (g : globals)
  : globals * Z :=
  if region <? 0 then (printk "scull: can't get major %d" g, region)
  else if negb (cdev =? 0) then
    (printk "Error %d adding scull character device" g, cdev)
  else if fifo_array =? 0 then (printk "Out of memory" g, - EFAULT)
  else
    let g := set_kalloc ((fifo_array, fifo_bytes g) :: kalloc g) g in
    let g := set_end fifo_array (set_start fifo_array g) in
    let g := set_queue_empty (sema_init 0) g in
    let g := set_queue_full (sema_init 0) g in
    let g := set_lock (sema_init 1) g in
    (printk "scull: FIFO SIZE=%u, ELEMSZ=%u" g, 0).

(** ** The pointer increment loops *)

(** One iteration of the loop at lines 110-117 (and 161-168):
    [if (p - orig >= scull_fifo_size) p = orig; else p += 1;] *)
Definition bump (g : globals) (p : Z) : Z :=
  if p - orig g >=? scull_fifo_size g then orig g else p + 1.

(** [n] iterations of the loop. *)
Fixpoint advance (g : globals) (n : nat) (p : Z) : Z :=
  match n with
  | O => p
  | S n' => advance g n' (bump g p)
  end.

(** The loop as it is written,
    [int temp = 0; while (temp < count) { ...; temp += 1; }]: [count] is a
    [size_t], so [temp] is converted to [size_t] for the comparison.  The
    loop ends within [count] iterations (see [increment_exits]), which is
    what [fuel] is given as. *)
Fixpoint while_temp (fuel : nat) (g : globals) (count temp p : Z) : Z :=
  match fuel with
  | O => p
  | S fuel' =>
      if size_t_of_int temp <? count
      then while_temp fuel' g count (int_of_Z (temp + 1)) (bump g p)
      else p
  end.

Definition increment (g : globals) (count p : Z) : Z :=
  while_temp (Z.to_nat count) g count 0 p.

(** The number of iterations the loop makes for a [count] within [size_t]:
    [count] of them up to 2^31, where [temp] wraps around to INT_MIN, which
    as a [size_t] is 2^64 - 2^31 and ends the loop unless [count] is larger
    still. *)
Definition iterations (count : Z) : Z :=
  if count <=? 2 ^ 31 then Z.max 0 count
  else if count <=? 2 ^ 64 - 2 ^ 31 then 2 ^ 31
  else count - (2 ^ 64 - 2 ^ 32).

(** ** Calls in progress *)

(** Program points, named after the source line about to be executed. *)
Inductive label : Type :=
(* scull_read *)
| L84 | L87 | L89 | L90 | L93 | L97 | L99 | L101 | L102 | L109 | L118 | L119
(* scull_write *)
| L131 | L134 | L137 | L139 | L141 | L144 | L148 | L150 | L152 | L154
| L160 | L169 | L170
(* the call has returned this value *)
| Ret (v : Z).

Record thread : Type := {
  pc : label;
  t_count : Z;              (* the parameter count *)
  ubuf : list byte          (* the user memory buf points to *)
}.

Definition goto (l : label) (t : thread) : thread :=
  {| pc := l; t_count := t_count t; ubuf := ubuf t |}.

Definition read_call (count : Z) : thread :=
  {| pc := L84; t_count := count; ubuf := [] |}.

Definition write_call (data : list byte) : thread :=
  {| pc := L131; t_count := Z.of_nat (length data); ubuf := data |}.

(** [if (down_interruptible(&sem)) printk(KERN_ERR msg);] *)
Definition down_or_log (sem : semaphore) (set : semaphore -> globals -> globals)
    (msg : string) (e : event) (g : globals) : option globals :=
  match down_interruptible sem e with
  | None => None
  | Some (sem', r) =>
      Some (if r =? 0 then set sem' g else printk msg (set sem' g))
  end.

(** [if (sem.count < 0) up(&sem);] (lines 102, 119, 154 and 170): the
    count is an [unsigned int], and so is the comparison. *)
Definition post_if_negative (sem : semaphore) : semaphore :=
  if uint_of_int (count sem) <? uint_of_int 0 then up sem else sem.

(** [(end-start == 1) || (end-start == scull_fifo_size)] (line 137) *)
Definition full_test (g : globals) : bool :=
  (end_ g - start g =? 1) || (end_ g - start g =? scull_fifo_size g).

(** [scull_read], lines 80-123: the statement the reader is about to
    execute. *)
Definition scull_read (g : globals) (t : thread) (e : event)
  : option (globals * thread) :=
  match pc t with
  | L84 => (* if (down_interruptible(&lock)) printk(...) *)
      option_map (fun g' => (g', goto L87 t))
        (down_or_log (lock g) set_lock
           "Could not acquire 'lock' semaphore." e g)
  | L87 => (* if (start == end) *)
      Some (g, goto (if start g =? end_ g then L89 else L97) t)
  | L89 => (* up(&lock) *)
      Some (set_lock (up (lock g)) g, goto L90 t)
  | L90 => (* if (down_interruptible(&queue_empty)) printk(...) *)
      option_map (fun g' => (g', goto L93 t))
        (down_or_log (queue_empty g) set_queue_empty
           "Could not acquire 'queue_empty' semaphore." e g)
  | L93 => (* if (down_interruptible(&lock)) printk(...) *)
      option_map (fun g' => (g', goto L97 t))
        (down_or_log (lock g) set_lock
           "Could not acquire 'lock' semaphore." e g)
  | L97 => (* printk(KERN_INFO ...) *)
      Some (printk "scull read" g, goto L99 t)
  | L99 => (* ret = copy_to_user(buf, start, count); if (ret != 0) *)
      match e with
      | Fault _ => Some (g, goto L101 t)
      | _ =>
          Some (g, {| pc := L109; t_count := t_count t;
                      ubuf := load (kmem g) (start g) (Z.to_nat (t_count t)) |})
      end
  | L101 => (* up(&lock) *)
      Some (set_lock (up (lock g)) g, goto L102 t)
  | L102 => (* if (queue_full.count < 0) up(&queue_full); printk; return -EFAULT *)
      Some (printk "Reading failed"
              (set_queue_full (post_if_negative (queue_full g)) g),
            goto (Ret (- EFAULT)) t)
  | L109 => (* while (temp < count) ... *)
      Some (set_start (increment g (t_count t) (start g)) g,
            goto L118 t)
  | L118 => (* up(&lock) *)
      Some (set_lock (up (lock g)) g, goto L119 t)
  | L119 => (* if (queue_full.count < 0) up(&queue_full); return count *)
      Some (set_queue_full (post_if_negative (queue_full g)) g,
            goto (Ret (t_count t)) t)
  | _ => None
  end.

(** [scull_write], lines 126-174. *)
Definition scull_write (g : globals) (t : thread) (e : event)
  : option (globals * thread) :=
  match pc t with
  | L131 => (* if (count > scull_fifo_elemsz) count = scull_fifo_elemsz *)
      Some (g,
            if t_count t >? size_t_of_int (scull_fifo_elemsz g)
            then {| pc := L134;
                    t_count := size_t_of_int (scull_fifo_elemsz g);
                    ubuf := ubuf t |}
            else goto L134 t)
  | L134 => (* if (down_interruptible(&lock)) printk(...) *)
      option_map (fun g' => (g', goto L137 t))
        (down_or_log (lock g) set_lock
           "Could not acquire 'lock' semaphore." e g)
  | L137 => (* if ((end-start == 1) || (end-start == scull_fifo_size)) *)
      Some (g, goto (if full_test g then L139 else L148) t)
  | L139 => (* up(&lock); printk(KERN_INFO ...) *)
      Some (printk "Queue full, going to sleep" (set_lock (up (lock g)) g),
            goto L141 t)
  | L141 => (* if (down_interruptible(&queue_full)) printk(...) *)
      option_map (fun g' => (g', goto L144 t))
        (down_or_log (queue_full g) set_queue_full
           "Could not acquire 'queue_full' semaphore." e g)
  | L144 => (* if (down_interruptible(&lock)) printk(...) *)
      option_map (fun g' => (g', goto L148 t))
        (down_or_log (lock g) set_lock
           "Could not acquire 'lock' semaphore." e g)
  | L148 => (* printk(KERN_INFO ...) *)
      Some (printk "scull write" g, goto L150 t)
  | L150 => (* ret = copy_from_user(end, buf, count); if (ret != 0) *)
      match e with
      | Fault stored =>
          Some (set_kmem (store (kmem g) (end_ g)
                            (firstn (Z.to_nat (t_count t)) stored)) g,
                              goto L152 t)
      | _ =>
          Some (set_kmem (store (kmem g) (end_ g)
                            (firstn (Z.to_nat (t_count t)) (ubuf t))) g,
                goto L160 t)
      end
  | L152 => (* printk(KERN_ERR ...); up(&lock) *)
      Some (set_lock (up (lock g)) (printk "Writing failed" g), goto L154 t)
  | L154 => (* if (queue_empty.count < 0) up(&queue_empty); return -EFAULT *)
      Some (set_queue_empty (post_if_negative (queue_empty g)) g,
            goto (Ret (- EFAULT)) t)
  | L160 => (* while (temp < count) ... *)
      Some (set_end (increment g (t_count t) (end_ g)) g,
            goto L169 t)
  | L169 => (* up(&lock) *)
      Some (set_lock (up (lock g)) g, goto L170 t)
  | L170 => (* if (queue_empty.count < 0) up(&queue_empty); return count *)
      Some (set_queue_empty (post_if_negative (queue_empty g)) g,
            goto (Ret (t_count t)) t)
  | _ => None
  end.

(** One statement of a call; a call that has returned has none. *)
Definition step (g : globals) (t : thread) (e : event)
  : option (globals * thread) :=
  match pc t with
  | L84 | L87 | L89 | L90 | L93 | L97 | L99 | L101 | L102 | L109 | L118
  | L119 => scull_read g t e
  | L131 | L134 | L137 | L139 | L141 | L144 | L148 | L150 | L152 | L154
  | L160 | L169 | L170 => scull_write g t e
  | Ret _ => None
  end.

(** A call driven by the events the environment offers, one per scheduling
    attempt.  An attempt on a sleeping (or returned) thread changes nothing. *)
Fixpoint run (g : globals) (t : thread) (evs : list event)
  : globals * thread :=
  match evs with
  | [] => (g, t)
  | e :: evs' =>
      match step g t e with
      | Some (g', t') => run g' t' evs'
      | None => run g t evs'
      end
  end.

(** A call offered the same event twelve times: no call has more than
    eleven statements on any path (see [run_settles]). *)
Definition finish (g : globals) (t : thread) (e : event) : globals * thread :=
  run g t (repeat e 12).

Definition returned (t : thread) : option Z :=
  match pc t with
  | Ret v => Some v
  | _ => None
  end.

(** ** The ioctl entry point *)

Section Ioctl.

(** The command numbers come from scull.h and the access check from
    access_ok_version.h; the entry point is studied for any values of them. *)
Variables SCULL_IOC_MAGIC SCULL_IOC_MAXNR SCULL_IOCGETELEMSZ : Z.
Variable access_ok_wrapper : Z -> Z -> Z -> bool.

Definition scull_ioctl (cmd arg : Z) (g : globals) : globals * Z :=
  if negb (_IOC_TYPE cmd =? SCULL_IOC_MAGIC) then (g, - ENOTTY)
  else if _IOC_NR cmd >? SCULL_IOC_MAXNR then (g, - ENOTTY)
  else
    let err :=
      if negb (Z.land (_IOC_DIR cmd) _IOC_READ =? 0)
      then negb (access_ok_wrapper VERIFY_WRITE arg (_IOC_SIZE cmd))
      else if negb (Z.land (_IOC_DIR cmd) _IOC_WRITE =? 0)
      then negb (access_ok_wrapper VERIFY_READ arg (_IOC_SIZE cmd))
      else false in
    if err then (g, - EFAULT)
    else if cmd =? SCULL_IOCGETELEMSZ then (g, scull_fifo_elemsz g)
    else (g, - ENOTTY).

End Ioctl.

(** ** Several callers *)

Definition pool : Type := nat -> thread.

Definition update (p : pool) (i : nat) (t : thread) : pool :=
  fun j => if Nat.eqb j i then t else p j.

Definition sys_step (s : globals * pool) (ie : nat * event)
  : option (globals * pool) :=
  match step (fst s) (snd s (fst ie)) (snd ie) with
  | Some (g', t') => Some (g', update (snd s) (fst ie) t')
  | None => None
  end.

Fixpoint sys_run (s : globals * pool) (sched : list (nat * event))
  : globals * pool :=
  match sched with
  | [] => s
  | ie :: sched' =>
      match sys_step s ie with
      | Some s' => sys_run s' sched'
      | None => sys_run s sched'
      end
  end.

(** ** Calls made one after the other *)

Inductive call : Type :=
| RD (count : Z)
| WR (data : list byte).

Definition enter (c : call) : thread :=
  match c with
  | RD count => read_call count
  | WR data => write_call data
  end.

(** What a call moved: the bytes handed to the reader, the bytes taken from
    the writer, or nothing (the copy failed, or the call went to sleep). *)
Inductive moved : Type :=
| Got (bytes : list byte)
| Put (bytes : list byte)
| Nothing.

Definition outcome (c : call) (t : thread) : moved :=
  match returned t with
  | None => Nothing
  | Some v =>
      if v =? - EFAULT then Nothing
      else match c with
           | RD _ => Got (ubuf t)
           | WR data => Put (firstn (Z.to_nat v) data)
           end
  end.

(** Each call is run until it returns or goes to sleep, then the next one
    starts; a call that went to sleep stays asleep.  The event says what
    the environment does to the call: [Run] lets it proceed, [Signal]
    interrupts every wait that would sleep, [Fault] fails its copy. *)
Fixpoint serial (g : globals) (cs : list (call * event))
  : globals * list moved :=
  match cs with
  | [] => (g, [])
  | (c, e) :: cs' =>
      let r := finish g (enter c) e in
      let r' := serial (fst r) cs' in
      (fst r', outcome c (snd r) :: snd r')
  end.

Fixpoint bytes_read (ms : list moved) : list byte :=
  match ms with
  | [] => []
  | Got bs :: ms' => bs ++ bytes_read ms'
  | _ :: ms' => bytes_read ms'
  end.

Fixpoint bytes_written (ms : list moved) : list byte :=
  match ms with
  | [] => []
  | Put bs :: ms' => bs ++ bytes_written ms'
  | _ :: ms' => bytes_written ms'
  end.

Definition prefix (l1 l2 : list byte) : Prop := exists k, l2 = l1 ++ k.

(** ** A loaded module

    kmalloc hands out addresses in the kernel half of the address space;
    seen through a signed pointer difference they are negative. *)
Definition fifo_array : Z := - (2 ^ 46).

Definition blank : memory := fun _ => x00.

Definition boot (elemsz size : Z) : globals :=
  fst (scull_init_module 0 0 fifo_array (module_load elemsz size blank)).

Definition AB : list byte := [x41; x42].

(** The state [scull_init_module] would leave had it also pointed [orig] at
    the array. *)
Definition based (elemsz size : Z) : globals :=
  {| scull_fifo_elemsz := elemsz; scull_fifo_size := size;
     start := fifo_array; end_ := fifo_array; orig := fifo_array;
     queue_empty := sema_init 0; queue_full := sema_init 0;
     lock := sema_init 1; kmem := blank;
     kalloc := [(fifo_array, size * (sizeof_ssize_t + elemsz))]; klog := [] |}.

(** *** States and callers used in the examples *)

Definition ABC : list byte := [x41; x42; x43].
Definition five : list byte := [x41; x42; x43; x44; x45].
Definition six : list byte := [x41; x42; x43; x44; x45; x46].

(** The state in which a list of calls leaves the driver, and what they
    moved. *)
Definition after (g : globals) (cs : list (call * event)) : globals :=
  fst (serial g cs).

Definition outcomes (g : globals) (cs : list (call * event)) : list moved :=
  snd (serial g cs).

(** One, three and nine bytes queued in a FIFO of ten. *)
Definition one_queued : globals := after (boot 4 10) [(WR [x41], Run)].

Definition three_queued : globals :=
  fst (finish (boot 4 10) (write_call ABC) Run).

Definition nine_queued : globals :=
  after (boot 4 10) [(WR ABC, Run); (WR ABC, Run); (WR ABC, Run)].

Definition readers (n : Z) : pool := fun _ => read_call n.

Definition writer_and_readers : pool :=
  fun i => match i with
           | O => write_call AB
           | _ => read_call 1
           end.

(** ** Vocabulary of the properties *)

(** Bytes queued between [start] and [end], walking forward the way the
    increment loop does (see [occupied_walk]). *)
Definition occupied (g : globals) : Z :=
  if start g <=? end_ g then end_ g - start g
  else end_ g - start g + scull_fifo_size g + 1.

(** The count a write works with after the test at line 131. *)
Definition accepted (g : globals) (data : list byte) : Z :=
  if Z.of_nat (length data) >? size_t_of_int (scull_fifo_elemsz g)
  then size_t_of_int (scull_fifo_elemsz g)
  else Z.of_nat (length data).

(** Classes of events. *)
Definition any_event (e : event) : Prop := True.

Definition no_signal (e : event) : Prop := e <> Signal.

Definition no_fault (e : event) : Prop :=
  match e with
  | Fault _ => False
  | _ => True
  end.

(** Events whose failed copies leave in kernel memory only byte strings
    allowed by [S]. *)
Definition faults (S : list byte -> Prop) (e : event) : Prop :=
  match e with
  | Fault s => S s
  | _ => True
  end.


Definition same_config (g g' : globals) : Prop :=
  scull_fifo_elemsz g' = scull_fifo_elemsz g /\
  scull_fifo_size g' = scull_fifo_size g /\
  orig g' = orig g.

(** The semaphore a call posts for the other side, and the cursor it moves. *)
Definition opposite (c : call) (g : globals) : semaphore :=
  match c with
  | RD _ => queue_full g
  | WR _ => queue_empty g
  end.

Definition cursor (c : call) (g : globals) : Z :=
  match c with
  | RD _ => start g
  | WR _ => end_ g
  end.

Definition requested (c : call) (g : globals) : Z :=
  match c with
  | RD count => count
  | WR data => accepted g data
  end.

(** The state in which a call finds no reason to sleep. *)
Definition ready (c : call) (g : globals) : Prop :=
  0 < count (lock g) /\
  match c with
  | RD _ => start g <> end_ g
  | WR _ => full_test g = false
  end.

(** Program points between a [down_interruptible(&lock)] and the matching
    [up(&lock)]. *)
Definition held (l : label) : Z :=
  match l with
  | L87 | L89 | L97 | L99 | L101 | L109 | L118
  | L137 | L139 | L148 | L150 | L152 | L160 | L169 => 1
  | _ => 0
  end.

(** *** Invariants of a call *)

Definition read_inv (g0 : globals) (c : Z) (g : globals) (t : thread) : Prop :=
  same_config g0 g /\ t_count t = c /\ kmem g = kmem g0 /\ end_ g = end_ g0 /\
  match pc t with
  | L84 | L87 | L89 | L90 | L93 | L97 | L99 | L101 | L102 =>
      start g = start g0 /\ queue_full g = queue_full g0
  | L109 =>
      start g = start g0 /\ queue_full g = queue_full g0 /\
      ubuf t = load (kmem g0) (start g0) (Z.to_nat c)
  | L118 | L119 =>
      start g = increment g0 c (start g0) /\
      queue_full g = queue_full g0 /\
      ubuf t = load (kmem g0) (start g0) (Z.to_nat c)
  | Ret v =>
      queue_full g = post_if_negative (queue_full g0) /\
      ((v = - EFAULT /\ start g = start g0) \/
       (v = c /\ start g = increment g0 c (start g0) /\
        ubuf t = load (kmem g0) (start g0) (Z.to_nat c)))
  | _ => False
  end.

Definition write_inv (S : list byte -> Prop) (g0 : globals) (d : list byte)
    (g : globals) (t : thread) : Prop :=
  same_config g0 g /\ ubuf t = d /\ start g = start g0 /\
  match pc t with
  | L131 =>
      t_count t = Z.of_nat (length d) /\ kmem g = kmem g0 /\
      end_ g = end_ g0 /\ queue_empty g = queue_empty g0
  | L134 | L137 | L139 | L141 | L144 | L148 | L150 =>
      t_count t = accepted g0 d /\ kmem g = kmem g0 /\
      end_ g = end_ g0 /\ queue_empty g = queue_empty g0
  | L152 | L154 =>
      end_ g = end_ g0 /\ queue_empty g = queue_empty g0 /\
      exists s, S s /\
        kmem g = store (kmem g0) (end_ g0)
                   (firstn (Z.to_nat (accepted g0 d)) s)
  | L160 =>
      t_count t = accepted g0 d /\
      kmem g = store (kmem g0) (end_ g0) (firstn (Z.to_nat (accepted g0 d)) d) /\
      end_ g = end_ g0 /\ queue_empty g = queue_empty g0
  | L169 | L170 =>
      t_count t = accepted g0 d /\
      kmem g = store (kmem g0) (end_ g0) (firstn (Z.to_nat (accepted g0 d)) d) /\
      end_ g = increment g0 (accepted g0 d) (end_ g0) /\
      queue_empty g = queue_empty g0
  | Ret v =>
      queue_empty g = post_if_negative (queue_empty g0) /\
      ((v = - EFAULT /\ end_ g = end_ g0 /\
        exists s, S s /\
        kmem g = store (kmem g0) (end_ g0)
                   (firstn (Z.to_nat (accepted g0 d)) s)) \/
       (v = accepted g0 d /\
        kmem g = store (kmem g0) (end_ g0) (firstn (Z.to_nat (accepted g0 d)) d) /\
        end_ g = increment g0 (accepted g0 d) (end_ g0)))
  | _ => False
  end.

Definition lock_inv (l0 : Z) (g : globals) (t : thread) : Prop :=
  count (lock g) = l0 - held (pc t).

(** Nothing but the return of the count follows a copy that did not fail. *)
Definition ok_inv (g : globals) (t : thread) : Prop :=
  match pc t with
  | L101 | L102 | L152 | L154 => False
  | Ret v => v = t_count t
  | _ => True
  end.

(** An upper bound on the statements a call still has to execute. *)
Definition remaining (l : label) : nat :=
  match l with
  | L84 => 10 | L87 => 9 | L89 => 8 | L90 => 7 | L93 => 6 | L97 => 5
  | L99 => 4 | L109 => 3 | L118 => 2 | L119 => 1 | L101 => 2 | L102 => 1
  | L131 => 11 | L134 => 10 | L137 => 9 | L139 => 8 | L141 => 7 | L144 => 6
  | L148 => 5 | L150 => 4 | L160 => 3 | L169 => 2 | L170 => 1
  | L152 => 2 | L154 => 1
  | Ret _ => 0
  end%nat.

(** *** Calls made one after the other *)

(** What a call changed, as seen from the state it started in. *)
Definition effect (g : globals) (m : moved) (g1 : globals) : Prop :=
  same_config g g1 /\
  match m with
  | Got bs =>
      bs = load (kmem g) (start g) (length bs) /\
      start g1 = increment g (Z.of_nat (length bs)) (start g) /\
      end_ g1 = end_ g /\ kmem g1 = kmem g
  | Put bs =>
      kmem g1 = store (kmem g) (end_ g) bs /\
      end_ g1 = increment g (Z.of_nat (length bs)) (end_ g) /\
      start g1 = start g
  | Nothing =>
      start g1 = start g /\ end_ g1 = end_ g /\
      forall x, x < end_ g -> kmem g1 x = kmem g x
  end.

(** Every read of the trace got no more bytes than were queued when it was
    made; [occ] is the number of bytes queued at the beginning. *)
Fixpoint within (occ : Z) (ms : list moved) : Prop :=
  match ms with
  | [] => True
  | Got bs :: ms' =>
      Z.of_nat (length bs) <= occ /\ within (occ - Z.of_nat (length bs)) ms'
  | Put bs :: ms' => within (occ + Z.of_nat (length bs)) ms'
  | Nothing :: ms' => within occ ms'
  end.

(** First in, first out, for the calls [cs] made from [g]. *)
Definition fifo (g : globals) (cs : list (call * event)) : Prop :=
  prefix (bytes_read (outcomes g cs)) (bytes_written (outcomes g cs)).

(** A read never returns more than what is queued. *)
Definition no_over_read (g : globals) (count : Z) : Prop :=
  forall evs v,
    returned (snd (run g (read_call count) evs)) = Some v -> v <= occupied g.

(** A successful call posts the semaphore of the other side. *)
Definition signals_other_side (g : globals) (c : call) (evs : list event)
  : Prop :=
  forall v,
    returned (snd (run g (enter c) evs)) = Some v -> v <> - EFAULT ->
    count (opposite c (fst (run g (enter c) evs))) = count (opposite c g) + 1.

(** *** Several callers *)

Definition booted (g : globals) : Prop :=
  count (lock g) = 1 /\ count (queue_empty g) = 0 /\ count (queue_full g) = 0.

Definition fresh (t : thread) : Prop := pc t = L84 \/ pc t = L131.

(** The condition under which the copy at lines 99 and 150 is meant to run. *)
Definition copy_guarded (g : globals) (t : thread) : Prop :=
  (pc t = L99 -> start g <> end_ g) /\
  (pc t = L150 -> full_test g = false).

Definition always_guarded (s : globals * pool) : Prop :=
  forall sched i,
    copy_guarded (fst (sys_run s sched)) (snd (sys_run s sched) i).

(** What a call knows about the cursors at its program point, when no wait
    is ever interrupted and no semaphore is ever posted. *)
Definition tested (g : globals) (l : label) : Prop :=
  match l with
  | L97 | L99 => start g <> end_ g
  | L148 | L150 => full_test g = false
  | L93 | L144 => False
  | _ => True
  end.

Definition sys_inv (s : globals * pool) : Prop :=
  count (queue_empty (fst s)) = 0 /\ count (queue_full (fst s)) = 0 /\
  0 <= count (lock (fst s)) <= 1 /\
  (count (lock (fst s)) = 1 -> forall i, held (pc (snd s i)) = 0) /\
  (forall i j, held (pc (snd s i)) = 1 -> held (pc (snd s j)) = 1 -> i = j) /\
  (forall i, tested (fst s) (pc (snd s i))).

(** *** Failed copies *)

(** Fault atomicity as the specification has it: the call whose copy fails
    (having stored [s]) returns -EFAULT, moves no cursor, and the call made
    next moves what it would have moved had the failed call not been
    made. *)
Definition fault_atomic (g : globals) (c : call) (s : list byte)
    (next : call) : Prop :=
  returned (snd (finish g (enter c) (Fault s))) = Some (- EFAULT) /\
  start (fst (finish g (enter c) (Fault s))) = start g /\
  end_ (fst (finish g (enter c) (Fault s))) = end_ g /\
  outcome next
    (snd (finish (fst (finish g (enter c) (Fault s))) (enter next) Run))
  = outcome next (snd (finish g (enter next) Run)).

(** *** The block of the FIFO *)

(** The [n] bytes from [a] on lie in a block that kmalloc handed out, and
    within its first [scull_fifo_size] bytes. *)
Definition in_fifo (g : globals) (a n : Z) : Prop :=
  exists base sz,
    In (base, sz) (kalloc g) /\
    base <= a /\ a + n <= base + sz /\ a + n <= base + scull_fifo_size g.

(** ** Opening and closing the device *)

(** [scull_open] and [scull_release], lines 65-75: a line in the log and the
    result 0. *)
Definition scull_open (g : globals) : globals * Z :=
  (printk "scull open" g, 0).

Definition scull_release (g : globals) : globals * Z :=
  (printk "scull close" g, 0).

(** Two states of the driver that differ at most in the log. *)
Definition same_but_log (g1 g2 : globals) : Prop :=
  scull_fifo_elemsz g1 = scull_fifo_elemsz g2 /\
  scull_fifo_size g1 = scull_fifo_size g2 /\
  start g1 = start g2 /\ end_ g1 = end_ g2 /\ orig g1 = orig g2 /\
  queue_empty g1 = queue_empty g2 /\ queue_full g1 = queue_full g2 /\
  lock g1 = lock g2 /\ kmem g1 = kmem g2 /\ kalloc g1 = kalloc g2.

(** What a process does with the device, one operation after the other. *)
Inductive op : Type :=
| OPEN
| CLOSE
| CALL (c : call) (e : event).

Fixpoint session (g : globals) (ops : list op) : globals * list moved :=
  match ops with
  | [] => (g, [])
  | OPEN :: ops' => session (fst (scull_open g)) ops'
  | CLOSE :: ops' => session (fst (scull_release g)) ops'
  | CALL c e :: ops' =>
      let r := finish g (enter c) e in
      let r' := session (fst r) ops' in
      (fst r', outcome c (snd r) :: snd r')
  end.

(** The reads and writes among the operations. *)
Fixpoint calls_of (ops : list op) : list (call * event) :=
  match ops with
  | [] => []
  | CALL c e :: ops' => (c, e) :: calls_of ops'
  | _ :: ops' => calls_of ops'
  end.

(** ** Loading and unloading the module *)

(** <linux/kdev_t.h>: a device number is a 32-bit [dev_t], the major number
    above twenty bits of minor number. *)
Definition MINORBITS : Z := 20.
Definition MAJOR (dev : Z) : Z := Z.shiftr dev MINORBITS.
Definition MKDEV (ma mi : Z) : Z := Z.lor (Z.shiftl ma MINORBITS) mi mod 2 ^ 32.

(** The driver within the kernel: its variables, the two parameters that
    name its device, and what it holds of the kernel's resources. *)
Record kernel : Type := {
  vars : globals;
  scull_major : Z;              (* static int scull_major *)
  scull_minor : Z;              (* static int scull_minor *)
  regions : list Z;             (* device numbers registered *)
  scull_cdev : option Z;        (* where scull_cdev has been added *)
  blocks : list Z               (* blocks obtained from kmalloc, not freed *)
}.

Definition with_vars (g : globals) (k : kernel) : kernel :=
  {| vars := g; scull_major := scull_major k; scull_minor := scull_minor k;
     regions := regions k; scull_cdev := scull_cdev k; blocks := blocks k |}.

(** [kfree]: the null pointer is accepted and nothing is done for it. *)
Definition kfree (p : Z) (bs : list Z) : list Z :=
  if p =? 0 then bs else remove Z.eq_dec p bs.

Definition unregister_chrdev_region (dev : Z) (rs : list Z) : list Z :=
  remove Z.eq_dec dev rs.

(** [scull_cleanup_module], lines 238-250. *)
Definition scull_cleanup_module (k : kernel) : kernel :=
  let devno := MKDEV (scull_major k) (scull_minor k) in
  {| vars := vars k;
     scull_major := scull_major k; scull_minor := scull_minor k;
     regions := unregister_chrdev_region devno (regions k);
     scull_cdev := None;                             (* cdev_del *)
     blocks := kfree (orig (vars k)) (blocks k) |}.  (* kfree(orig) *)

(** [scull_init_module], lines 253-303, with what it takes from the kernel.
    [region] is the result of [register_chrdev_region] or
    [alloc_chrdev_region] and [dyn] the major number the latter chooses;
    [cdev] is the result of [cdev_add] and [fifo_array] that of kmalloc.
    The driver's variables are set as [scull_init_module] sets them. *)
Definition module_init (region dyn cdev fifo_array : Z) (k : kernel)
  : kernel * Z :=
  let fixed := negb (scull_major k =? 0) in
  let dev :=
    if fixed then MKDEV (scull_major k) (scull_minor k)
    else if region <? 0 then 0 else MKDEV dyn (scull_minor k) in
  let r := scull_init_module region cdev fifo_array (vars k) in
  let k0 :=
    {| vars := fst r;
       scull_major := if fixed then scull_major k else MAJOR dev;
       scull_minor := scull_minor k;
       regions := regions k; scull_cdev := scull_cdev k;
       blocks := blocks k |} in
  if region <? 0 then (k0, snd r)
  else
    let k1 :=
      {| vars := vars k0;
         scull_major := scull_major k0; scull_minor := scull_minor k0;
         regions := dev :: regions k0; scull_cdev := scull_cdev k0;
         blocks := blocks k0 |} in
    if negb (cdev =? 0) then (scull_cleanup_module k1, snd r)
    else
      let k2 :=
        {| vars := vars k1;
           scull_major := scull_major k1; scull_minor := scull_minor k1;
           regions := regions k1; scull_cdev := Some dev;
           blocks := blocks k1 |} in
      if fifo_array =? 0 then (k2, snd r)
      else
        ({| vars := vars k2;
            scull_major := scull_major k2; scull_minor := scull_minor k2;
            regions := regions k2; scull_cdev := scull_cdev k2;
            blocks := fifo_array :: blocks k2 |}, snd r).

(** The device number [module_init] registers when registration succeeds:
    the one the parameters name, or the one built on the major number the
    kernel chose. *)
Definition device (dyn : Z) (k : kernel) : Z :=
  if scull_major k =? 0 then MKDEV dyn (scull_minor k)
  else MKDEV (scull_major k) (scull_minor k).

(** The module as the loader finds it, with the given parameters and nothing
    held. *)
Definition unloaded (major minor elemsz size : Z) : kernel :=
  {| vars := module_load elemsz size blank;
     scull_major := major; scull_minor := minor;
     regions := []; scull_cdev := None; blocks := [] |}.

(** A call that stands before a [down_interruptible] it cannot get past. *)
Definition waiting (g : globals) (t : thread) : Prop :=
  match pc t with
  | L84 | L93 | L134 | L144 => count (lock g) <= 0
  | L90 => count (queue_empty g) <= 0
  | L141 => count (queue_full g) <= 0
  | _ => False
  end.

(** ** More vocabulary *)

(** The statements of [scull_read], and those of [scull_write]. *)
Definition in_read (l : label) : Prop :=
  match l with
  | L84 | L87 | L89 | L90 | L93 | L97 | L99 | L101 | L102 | L109 | L118
  | L119 => True
  | _ => False
  end.

Definition in_write (l : label) : Prop :=
  match l with
  | L131 | L134 | L137 | L139 | L141 | L144 | L148 | L150 | L152 | L154
  | L160 | L169 | L170 => True
  | _ => False
  end.

(** A pool in which every call is a read (a write), under way or returned. *)
Definition all_readers (p : pool) : Prop :=
  forall i, in_read (pc (p i)) \/ exists v, pc (p i) = Ret v.

Definition all_writers (p : pool) : Prop :=
  forall i, in_write (pc (p i)) \/ exists v, pc (p i) = Ret v.

(** How many waits on the mutex lie behind a program point: each of them
    may have been interrupted, in which case the call went on without
    taking the mutex. *)
Definition slack (l : label) : Z :=
  match l with
  | L84 | L131 | L134 => 0
  | L87 | L89 | L90 | L93 | L137 | L139 | L141 | L144 => 1
  | _ => 2
  end.

(** The count of the mutex during a call that found it at [l0]. *)
Definition mutex_inv (l0 : Z) (g : globals) (t : thread) : Prop :=
  l0 - held (pc t) <= count (lock g) <= l0 - held (pc t) + slack (pc t).

(** * Properties *)

(** ** Memory *)

Lemma load_length (m : memory) (n : nat) :
  forall a, length (load m a n) = n.
Proof. induction n; intros; simpl; auto. Qed.

Lemma store_below (bs : list byte) :
  forall m a x, x < a -> store m a bs x = m x.
Proof.
  induction bs as [|b bs IH]; intros m a x Hx; simpl; auto.
  rewrite IH by lia.
  destruct (Z.eqb_spec x a); [lia | reflexivity].
Qed.

Lemma store_above (bs : list byte) :
  forall m a x, a + Z.of_nat (length bs) <= x -> store m a bs x = m x.
Proof.
  induction bs as [|b bs IH]; intros m a x Hx; cbn [store]; auto.
  cbn [length] in Hx. rewrite IH by lia.
  destruct (Z.eqb_spec x a); [lia | reflexivity].
Qed.

Lemma load_ext (n : nat) :
  forall m m' a,
    (forall x, a <= x < a + Z.of_nat n -> m x = m' x) ->
    load m a n = load m' a n.
Proof.
  induction n as [|n IH]; intros m m' a H; simpl; auto.
  f_equal; [apply H; lia | apply IH; intros; apply H; lia].
Qed.

Lemma load_store (bs : list byte) :
  forall m a, load (store m a bs) a (length bs) = bs.
Proof.
  induction bs as [|b bs IH]; intros m a; simpl; auto.
  f_equal.
  - rewrite store_below by lia. now rewrite Z.eqb_refl.
  - apply IH.
Qed.

Lemma load_app (m : memory) (n k : nat) :
  forall a, load m a (n + k) = load m a n ++ load m (a + Z.of_nat n) k.
Proof.
  induction n as [|n IH]; intros a.
  - simpl. now rewrite Z.add_0_r.
  - cbn [load Nat.add app]. rewrite IH. do 3 f_equal. lia.
Qed.

(** ** The increment loop *)

Lemma advance_ext (g g' : globals) (n : nat) :
  orig g' = orig g -> scull_fifo_size g' = scull_fifo_size g ->
  forall p, advance g' n p = advance g n p.
Proof.
  intros Ho Hs. induction n as [|n IH]; intros p; simpl; auto.
  rewrite IH. unfold bump. now rewrite Ho, Hs.
Qed.

Lemma advance_add (g : globals) (n k : nat) :
  forall p, advance g (n + k) p = advance g k (advance g n p).
Proof. induction n as [|n IH]; intros p; simpl; auto. Qed.

(** While the pointer stays short of [orig + scull_fifo_size] the loop is
    plain addition. *)
Lemma advance_linear (g : globals) (n : nat) :
  forall p, p - orig g + Z.of_nat n <= scull_fifo_size g ->
            advance g n p = p + Z.of_nat n.
Proof.
  induction n as [|n IH]; intros p H.
  - simpl. lia.
  - cbn [advance]. unfold bump.
    destruct (Z.geb_spec (p - orig g) (scull_fifo_size g)); [lia|].
    rewrite IH by lia. lia.
Qed.

(** The pointer leaves [orig + scull_fifo_size] for [orig]. *)
Lemma bump_wraps (g : globals) (p : Z) :
  p - orig g = scull_fifo_size g -> bump g p = orig g.
Proof.
  intros H. unfold bump.
  destruct (Z.geb_spec (p - orig g) (scull_fifo_size g)); [reflexivity | lia].
Qed.

(** [occupied] counts the iterations of the loop that take [start] to
    [end], when both lie between [orig] and [orig + scull_fifo_size]. *)
Lemma occupied_walk (g : globals) :
  orig g <= start g <= orig g + scull_fifo_size g ->
  orig g <= end_ g <= orig g + scull_fifo_size g ->
  advance g (Z.to_nat (occupied g)) (start g) = end_ g.
Proof.
  intros Hs He. unfold occupied.
  destruct (Z.leb_spec (start g) (end_ g)).
  - rewrite advance_linear; lia.
  - replace (Z.to_nat (end_ g - start g + scull_fifo_size g + 1))
      with (Z.to_nat (orig g + scull_fifo_size g - start g)
            + (1 + Z.to_nat (end_ g - orig g)))%nat by lia.
    rewrite advance_add.
    rewrite (advance_linear g _ (start g)) by lia.
    rewrite advance_add. cbn [advance].
    rewrite bump_wraps by lia.
    rewrite advance_linear; lia.
Qed.

(** ** The loop and its counter *)

Lemma increment_ext (g g' : globals) (count : Z) :
  orig g' = orig g -> scull_fifo_size g' = scull_fifo_size g ->
  forall p, increment g' count p = increment g count p.
Proof.
  intros Ho Hs.
  assert (H : forall fuel temp p,
            while_temp fuel g' count temp p = while_temp fuel g count temp p).
  { induction fuel as [|n IH]; intros temp p; cbn [while_temp]; auto.
    rewrite IH. unfold bump. now rewrite Ho, Hs. }
  intros p. apply H.
Qed.

Lemma int_of_Z_succ (z : Z) : int_of_Z (int_of_Z z + 1) = int_of_Z (z + 1).
Proof.
  unfold int_of_Z. f_equal.
  replace ((z + 2 ^ 31) mod 2 ^ 32 - 2 ^ 31 + 1 + 2 ^ 31)
    with ((z + 2 ^ 31) mod 2 ^ 32 + 1) by lia.
  rewrite Z.add_mod_idemp_l by lia. f_equal. lia.
Qed.

(** [temp] as the comparison sees it, in the [k]-th iteration. *)
Lemma temp_before_wrap (k : Z) :
  0 <= k < 2 ^ 31 -> size_t_of_int (int_of_Z k) = k.
Proof.
  intros Hk. unfold size_t_of_int, int_of_Z.
  rewrite (Z.mod_small (k + 2 ^ 31)) by lia.
  replace (k + 2 ^ 31 - 2 ^ 31) with k by lia. apply Z.mod_small. lia.
Qed.

Lemma temp_after_wrap (k : Z) :
  2 ^ 31 <= k < 2 ^ 32 ->
  size_t_of_int (int_of_Z k) = k + (2 ^ 64 - 2 ^ 32).
Proof.
  intros Hk. unfold size_t_of_int, int_of_Z.
  replace ((k + 2 ^ 31) mod 2 ^ 32) with (k - 2 ^ 31)
    by (apply Z.mod_unique with (q := 1); lia).
  symmetry. apply Z.mod_unique with (q := -1); lia.
Qed.

Lemma while_temp_runs (g : globals) (count : Z) (n : nat) :
  forall fuel k p,
    (forall j, k <= j < k + Z.of_nat n -> size_t_of_int (int_of_Z j) < count) ->
    while_temp (n + fuel) g count (int_of_Z k) p
    = while_temp fuel g count (int_of_Z (k + Z.of_nat n)) (advance g n p).
Proof.
  induction n as [|n IH]; intros fuel k p Ht.
  - cbn [Nat.add advance]. now rewrite Z.add_0_r.
  - cbn [Nat.add while_temp advance].
    destruct (Z.ltb_spec (size_t_of_int (int_of_Z k)) count) as [_|Hge].
    + rewrite int_of_Z_succ, IH by (intros; apply Ht; lia).
      do 2 f_equal. lia.
    + specialize (Ht k). lia.
Qed.

Lemma while_temp_stops (g : globals) (count temp p : Z) (fuel : nat) :
  count <= size_t_of_int temp -> while_temp fuel g count temp p = p.
Proof.
  intros H. destruct fuel; cbn [while_temp]; auto.
  destruct (Z.ltb_spec (size_t_of_int temp) count); [lia | reflexivity].
Qed.

(** The loop ends, after [iterations count] iterations, and giving it more
    fuel than [count] changes nothing. *)
Lemma increment_exits (g : globals) (count p : Z) (extra : nat) :
  count < 2 ^ 64 ->
  while_temp (Z.to_nat count + extra) g count 0 p
  = advance g (Z.to_nat (iterations count)) p.
Proof.
  intros Hc.
  assert (Hrun : forall n : nat,
            (n <= Z.to_nat count)%nat ->
            (forall j, 0 <= j < Z.of_nat n ->
                       size_t_of_int (int_of_Z j) < count) ->
            count <= size_t_of_int (int_of_Z (Z.of_nat n)) ->
            while_temp (Z.to_nat count + extra) g count 0 p = advance g n p).
  { intros n Hn Ht Hs.
    replace (Z.to_nat count + extra)%nat
      with (n + (Z.to_nat count - n + extra))%nat by lia.
    change (while_temp (n + (Z.to_nat count - n + extra)) g count
              (int_of_Z 0) p = advance g n p).
    rewrite while_temp_runs by (intros; apply Ht; lia).
    now apply while_temp_stops. }
  unfold iterations.
  destruct (Z.leb_spec count (2 ^ 31)) as [H1|H1].
  - apply Hrun; try lia.
    + intros j Hj. rewrite temp_before_wrap; lia.
    + destruct (Z.eq_dec count (2 ^ 31)) as [->|Hne].
      * rewrite temp_after_wrap; lia.
      * rewrite temp_before_wrap; lia.
  - destruct (Z.leb_spec count (2 ^ 64 - 2 ^ 31)) as [H2|H2].
    + apply Hrun; try lia.
      * intros j Hj. rewrite temp_before_wrap; lia.
      * rewrite temp_after_wrap; lia.
    + apply Hrun; try lia.
      * intros j Hj. destruct (Z.lt_ge_cases j (2 ^ 31)).
        -- rewrite temp_before_wrap; lia.
        -- rewrite temp_after_wrap; lia.
      * rewrite temp_after_wrap; lia.
Qed.

Lemma increment_iterations (g : globals) (count p : Z) :
  count < 2 ^ 64 ->
  increment g count p = advance g (Z.to_nat (iterations count)) p.
Proof.
  intros Hc. unfold increment.
  rewrite <- (Nat.add_0_r (Z.to_nat count)). now apply increment_exits.
Qed.

Lemma increment_nothing (g : globals) (count p : Z) :
  count <= 0 -> increment g count p = p.
Proof.
  intros Hc. unfold increment.
  replace (Z.to_nat count) with O by lia. reflexivity.
Qed.

(** Up to [INT_MAX] the loop makes [count] iterations. *)
Lemma increment_small (g : globals) (count p : Z) :
  count <= INT_MAX -> increment g count p = advance g (Z.to_nat count) p.
Proof.
  unfold INT_MAX. intros Hc. rewrite increment_iterations by lia.
  unfold iterations. destruct (Z.leb_spec count (2 ^ 31)); [|lia].
  f_equal. lia.
Qed.

(** The test of an unsigned count for being negative. *)
Lemma post_if_negative_never (sem : semaphore) : post_if_negative sem = sem.
Proof.
  unfold post_if_negative, uint_of_int.
  destruct (Z.ltb_spec (count sem mod 2 ^ 32) (0 mod 2 ^ 32)) as [H|H]; auto.
  pose proof (Z.mod_pos_bound (count sem) (2 ^ 32) ltac:(lia)).
  rewrite Z.mod_0_l in H by lia. lia.
Qed.

(** ** Reasoning on runs *)

(** A property of the events that holds all along a run and a property of
    the call that every statement preserves under such events. *)
Lemma run_invariant (Q : event -> Prop) (P : globals -> thread -> Prop) :
  (forall g t e g' t', Q e -> P g t -> step g t e = Some (g', t') -> P g' t') ->
  forall evs, Forall Q evs ->
  forall g t, P g t -> P (fst (run g t evs)) (snd (run g t evs)).
Proof.
  intros Hstep evs HQ. induction HQ as [|e evs He _ IH]; intros g t HP.
  - exact HP.
  - simpl. destruct (step g t e) as [[g' t']|] eqn:E.
    + apply IH. eapply Hstep; eauto.
    + apply IH, HP.
Qed.

Lemma Forall_any (evs : list event) : Forall any_event evs.
Proof. induction evs; constructor; unfold any_event; auto. Qed.

Lemma Forall_faults_any (evs : list event) :
  Forall (faults (fun _ => True)) evs.
Proof. induction evs as [|[]]; constructor; simpl; auto. Qed.

Lemma Forall_repeat (Q : event -> Prop) (e : event) (n : nat) :
  Q e -> Forall Q (repeat e n).
Proof. intros H. induction n; simpl; constructor; auto. Qed.

(** Taking a statement apart: the program point, the outcome of a wait, the
    test of a branch. *)
Ltac break_step H :=
  unfold step, scull_read, scull_write, down_or_log, down_interruptible in H;
  repeat match type of H with
         | context [match pc ?t with _ => _ end] =>
             let E := fresh "Hpc" in destruct (pc t) eqn:E
         | context [match ?e with Run => _ | Signal => _ | Fault _ => _ end] =>
             destruct e
         | context [if ?b then _ else _] =>
             let E := fresh "Hif" in destruct b eqn:E
         | _ => progress (cbn [option_map] in H)
         end;
  try discriminate H;
  try (injection H as <- <-).

(** Splitting a conjunction of closed facts, each to be computed. *)
Ltac conjuncts :=
  repeat match goal with
         | |- _ /\ _ => split
         end.

(** A closed equation, settled by evaluation. *)
Ltac evaluate :=
  match goal with
  | |- @eq _ _ _ => vm_compute; reflexivity
  end.

Ltac split_all :=
  repeat match goal with
         | H : _ /\ _ |- _ => destruct H
         | H : exists _, _ |- _ => destruct H
         end.

Lemma step_config g t e g' t' :
  step g t e = Some (g', t') -> same_config g g'.
Proof.
  intros H. break_step H; repeat split.
Qed.

Lemma same_config_trans g1 g2 g3 :
  same_config g1 g2 -> same_config g2 g3 -> same_config g1 g3.
Proof. intros (? & ? & ?) (? & ? & ?). repeat split; congruence. Qed.

(** ** What a read does to the driver's variables *)

Lemma read_inv_step g0 c g t e g' t' :
  any_event e -> read_inv g0 c g t -> step g t e = Some (g', t') ->
  read_inv g0 c g' t'.
Proof.
  intros _ (Hc & Hn & Hm & He & Hpc) H.
  assert (Hcfg : same_config g0 g')
    by (eapply same_config_trans; eauto using step_config).
  unfold read_inv.
  break_step H; (split; [exact Hcfg|]); cbn in *; try contradiction;
    split_all; repeat split; auto; try congruence.
  rewrite (increment_ext g0 g) by (destruct Hc as (? & ? & ?); auto).
  congruence.
Qed.

Lemma read_summary g c evs :
  read_inv g c (fst (run g (read_call c) evs)) (snd (run g (read_call c) evs)).
Proof.
  apply (run_invariant any_event); auto using Forall_any.
  - intros; eapply read_inv_step; eauto.
  - repeat split.
Qed.

(** ** What a write does to the driver's variables *)

Lemma write_inv_step S g0 d g t e g' t' :
  faults S e -> write_inv S g0 d g t -> step g t e = Some (g', t') ->
  write_inv S g0 d g' t'.
Proof.
  intros HS (Hc & Hu & Hs & Hpc) H.
  assert (Hcfg : same_config g0 g')
    by (eapply same_config_trans; eauto using step_config).
  assert (Hacc : accepted g d = accepted g0 d).
  { unfold accepted. destruct Hc as (-> & _). reflexivity. }
  unfold write_inv.
  break_step H; (split; [exact Hcfg|]); cbn in *; try contradiction;
    split_all; repeat split; auto; try congruence.
  all: try (rewrite (increment_ext g0 g) by (destruct Hc as (? & ? & ?); auto);
            congruence).
  - rewrite <- Hacc. unfold accepted. rewrite H in Hif. now rewrite Hif.
  - rewrite <- Hacc. unfold accepted. rewrite H in Hif. now rewrite Hif.
  - exists stored. split; [exact HS | congruence].
  - eauto.
  - left. eauto 6.
Qed.

Lemma write_summary S g d evs :
  Forall (faults S) evs ->
  write_inv S g d (fst (run g (write_call d) evs))
                  (snd (run g (write_call d) evs)).
Proof.
  intros H. apply (run_invariant (faults S)); auto.
  - intros; eapply write_inv_step; eauto.
  - repeat split.
Qed.

Lemma accepted_bounds g d : 0 <= accepted g d <= Z.of_nat (length d).
Proof.
  unfold accepted, size_t_of_int.
  pose proof (Z.mod_pos_bound (scull_fifo_elemsz g) (2 ^ 64) ltac:(lia)).
  destruct (Z.gtb_spec (Z.of_nat (length d)) (scull_fifo_elemsz g mod 2 ^ 64));
    lia.
Qed.

(** ** The mutex, when no wait is interrupted *)

Lemma lock_inv_step l0 g t e g' t' :
  no_signal e -> lock_inv l0 g t -> step g t e = Some (g', t') ->
  lock_inv l0 g' t'.
Proof.
  unfold lock_inv, no_signal. intros He Hl H.
  break_step H; cbn in *; try congruence; lia.
Qed.

Lemma lock_summary g t evs :
  Forall no_signal evs ->
  count (lock (fst (run g t evs))) =
  count (lock g) + held (pc t) - held (pc (snd (run g t evs))).
Proof.
  intros H.
  pose proof (run_invariant no_signal (lock_inv (count (lock g) + held (pc t)))
                (lock_inv_step _) evs H g t) as L.
  unfold lock_inv in L. rewrite L; lia.
Qed.

(** ** Copies that do not fail *)

Lemma ok_inv_step g t e g' t' :
  no_fault e -> ok_inv g t -> step g t e = Some (g', t') -> ok_inv g' t'.
Proof.
  unfold ok_inv, no_fault. intros He Hok H.
  break_step H; cbn in *; auto; contradiction.
Qed.

Lemma ok_summary g c evs :
  Forall no_fault evs ->
  ok_inv (fst (run g (enter c) evs)) (snd (run g (enter c) evs)).
Proof.
  intros H. apply (run_invariant no_fault); auto.
  - intros; eapply ok_inv_step; eauto.
  - destruct c; exact I.
Qed.

(** ** A call that finds no reason to sleep *)

Lemma finish_ready g c :
  ready c g -> returned (snd (finish g (enter c) Run)) = Some (requested c g).
Proof.
  intros [Hl Hr]. apply Z.ltb_lt in Hl.
  destruct c as [n|d]; cbn [enter requested].
  - apply Z.eqb_neq in Hr.
    unfold finish. cbn [repeat run].
    unfold step at 1. cbn [pc read_call]. unfold scull_read at 1.
    cbn [pc read_call].
    unfold down_or_log, down_interruptible. rewrite Hl. cbn.
    rewrite Hr. reflexivity.
  - unfold finish, accepted. cbn [repeat run].
    unfold step at 1. cbn [pc write_call]. unfold scull_write at 1.
    cbn [pc write_call t_count].
    destruct (Z.of_nat (length d) >? size_t_of_int (scull_fifo_elemsz g));
      cbn; unfold down_or_log, down_interruptible; rewrite Hl;
      cbn -[full_test];
      change (full_test (set_lock {| count := count (lock g) - 1 |} g))
        with (full_test g); rewrite Hr; reflexivity.
Qed.

(** ** The control query *)

(** C10. Whatever the command word, the argument, the command numbers of
    scull.h and the answer of the access check, [scull_ioctl] hands back the
    driver's variables exactly as it found them (cursors, memory, the three
    semaphores, the log), and its result is the configured element size,
    -ENOTTY or -EFAULT. *)
Theorem ioctl_leaves_state_unchanged :
  forall (magic maxnr getelemsz : Z) (access_ok : Z -> Z -> Z -> bool)
         (cmd arg : Z) (g : globals),
    fst (scull_ioctl magic maxnr getelemsz access_ok cmd arg g) = g /\
    (snd (scull_ioctl magic maxnr getelemsz access_ok cmd arg g)
       = scull_fifo_elemsz g \/
     snd (scull_ioctl magic maxnr getelemsz access_ok cmd arg g) = - ENOTTY \/
     snd (scull_ioctl magic maxnr getelemsz access_ok cmd arg g) = - EFAULT).
Proof.
  intros. unfold scull_ioctl.
  repeat match goal with
         | |- context [if ?b then _ else _] => destruct b
         end; cbn [fst snd]; auto.
Qed.

(** ** Reads and the number of queued bytes *)

(** C2, as stated, fails: with three bytes queued in a FIFO of ten, a read
    of 100 bytes returns 100. *)
Lemma read_100_of_3_returns_100 :
  occupied three_queued = 3 /\ scull_fifo_size three_queued = 10 /\
  ~ no_over_read three_queued 100.
Proof.
  assert (Hocc : occupied three_queued = 3) by (vm_compute; reflexivity).
  split; [exact Hocc | split; [vm_compute; reflexivity |]].
  intros H. specialize (H (repeat Run 12) 100).
  rewrite Hocc in H.
  assert (100 <= 3); [apply H; vm_compute; reflexivity | lia].
Qed.

(** C2, amended.  A read whose copy does not fail returns exactly the count
    it was asked for, whatever the number of queued bytes; and a read that
    finds the mutex free and the cursors apart does return. *)
Theorem read_returns_requested_count (g : globals) (n : Z) :
  (forall evs v,
      Forall no_fault evs ->
      returned (snd (run g (read_call n) evs)) = Some v -> v = n) /\
  (ready (RD n) g -> returned (snd (finish g (read_call n) Run)) = Some n).
Proof.
  split.
  - intros evs v Hev Hret.
    pose proof (ok_summary g (RD n) evs Hev) as Hok.
    pose proof (read_summary g n evs) as (_ & Hn & _).
    unfold ok_inv, returned in *. cbn [enter] in Hok.
    destruct (pc (snd (run g (read_call n) evs))); try discriminate.
    injection Hret as <-. congruence.
  - apply (finish_ready g (RD n)).
Qed.

Lemma read_returns_requested_count_witness :
  returned (snd (finish three_queued (read_call 100) Run)) = Some 100 /\
  100 = 100.
Proof.
  split.
  - apply (proj2 (read_returns_requested_count three_queued 100)).
    split; vm_compute; [reflexivity | discriminate].
  - apply (proj1 (read_returns_requested_count three_queued 100)
             (repeat Run 12) 100).
    + repeat constructor.
    + reflexivity.
Defined.

(** ** Failed copies *)

Lemma fault_returns_EFAULT g t s e1 e2 :
  pc t = L99 \/ pc t = L150 ->
  returned (snd (run g t [Fault s; e1; e2])) = Some (- EFAULT).
Proof.
  intros [H | H]; cbn [run]; unfold step at 1, scull_read, scull_write;
    rewrite H; reflexivity.
Qed.

(** After a call that returned -EFAULT. *)
Lemma fault_frame (g : globals) (c : call) (evs : list event) :
  returned (snd (run g (enter c) evs)) = Some (- EFAULT) ->
  start (fst (run g (enter c) evs)) = start g /\
  end_ (fst (run g (enter c) evs)) = end_ g /\
  (forall x, x < end_ g \/ end_ g + requested c g <= x ->
             kmem (fst (run g (enter c) evs)) x = kmem g x) /\
  match c with
  | RD _ => kmem (fst (run g (enter c) evs)) = kmem g
  | WR _ => True
  end.
Proof.
  intros Hret. destruct c as [n|d]; cbn [enter requested] in *.
  - pose proof (read_summary g n evs) as (_ & _ & Hm & He & Hpc).
    unfold returned in Hret.
    destruct (pc (snd (run g (read_call n) evs))); try discriminate.
    injection Hret as ->. destruct Hpc as (_ & [(_ & Hs) | (<- & Hs & _)]).
    + repeat split; auto. intros; now rewrite Hm.
    + rewrite increment_nothing in Hs by (unfold EFAULT; lia).
      repeat split; auto. intros; now rewrite Hm.
  - pose proof (accepted_bounds g d) as Hb.
    pose proof (write_summary _ g d evs (Forall_faults_any evs))
      as (_ & _ & Hs & Hpc).
    unfold returned in Hret.
    destruct (pc (snd (run g (write_call d) evs))); try discriminate.
    injection Hret as ->.
    destruct Hpc as (_ & [(_ & He & s & _ & Hm) | (Hv & _)]);
      [|unfold EFAULT in Hv; lia].
    repeat split; auto.
    intros x [Hx | Hx]; rewrite Hm.
    + now apply store_below.
    + apply store_above. rewrite length_firstn. lia.
Qed.

(** C6, as stated, fails.  With [start] two bytes past [end] (three bytes
    were written and five read), a write whose copy gives up after it has
    stored three of its four bytes and a zero returns -EFAULT and moves no
    cursor, but the read of one byte that follows gets the third of those
    bytes, not the byte that was there before. *)
Lemma failed_write_is_seen_by_the_next_read :
  ~ fault_atomic (after (boot 4 10) [(WR ABC, Run); (RD 5, Run)])
      (WR [x57; x58; x59; x5a]) [x57; x58; x59; x00] (RD 1).
Proof.
  intros (_ & _ & _ & H). vm_compute in H. discriminate H.
Qed.

(** C6, amended.  When the copy of a read or of a write fails, the call
    returns -EFAULT; and after any call that returned -EFAULT both cursors
    are where they were.  A failed read has changed no byte of the kernel
    memory; a failed write has changed none but those its copy was asked to
    fill, from [end] on, so that every byte below [end] is what it was and a
    later read that stays below [end] finds the bytes it would have
    found. *)
Theorem failed_copy_moves_no_cursor (g : globals) (c : call) :
  (forall g1 t s e1 e2,
      pc t = L99 \/ pc t = L150 ->
      returned (snd (run g1 t [Fault s; e1; e2])) = Some (- EFAULT)) /\
  (forall evs,
      returned (snd (run g (enter c) evs)) = Some (- EFAULT) ->
      start (fst (run g (enter c) evs)) = start g /\
      end_ (fst (run g (enter c) evs)) = end_ g /\
      (forall x, x < end_ g \/ end_ g + requested c g <= x ->
                 kmem (fst (run g (enter c) evs)) x = kmem g x) /\
      (forall n, start g + Z.of_nat n <= end_ g ->
                 load (kmem (fst (run g (enter c) evs)))
                      (start (fst (run g (enter c) evs))) n
                 = load (kmem g) (start g) n) /\
      match c with
      | RD _ => kmem (fst (run g (enter c) evs)) = kmem g
      | WR _ => True
      end).
Proof.
  split; [intros; now apply fault_returns_EFAULT|].
  intros evs Hret.
  destruct (fault_frame g c evs Hret) as (Hs & He & Hframe & Hrd).
  repeat split; auto.
  intros n Hn. rewrite Hs. apply load_ext.
  intros x Hx. apply Hframe. lia.
Qed.

Lemma failed_copy_moves_no_cursor_witness :
  returned (snd (run three_queued (goto L150 (write_call AB))
                   [Fault [x41]; Run; Run])) = Some (- EFAULT) /\
  start (fst (finish three_queued (write_call AB) (Fault [x57])))
    = start three_queued /\
  end_ (fst (finish three_queued (write_call AB) (Fault [x57])))
    = end_ three_queued /\
  load (kmem (fst (finish three_queued (write_call AB) (Fault [x57]))))
       (start (fst (finish three_queued (write_call AB) (Fault [x57])))) 3
    = load (kmem three_queued) (start three_queued) 3.
Proof.
  split.
  - apply (proj1 (failed_copy_moves_no_cursor three_queued (WR AB))).
    right. reflexivity.
  - destruct (proj2 (failed_copy_moves_no_cursor three_queued (WR AB))
                (repeat (Fault [x57]) 12)) as (Hs & He & _ & Hq & _).
    + vm_compute. reflexivity.
    + split; [exact Hs | split; [exact He |]].
      apply (Hq 3%nat). apply Z.leb_le. vm_compute. reflexivity.
Defined.

(** ** Truncation of writes *)

(** C7. With a sensible element size and more bytes offered than that, a
    write that does not fail returns the element size and has enqueued
    exactly the first [scull_fifo_elemsz] bytes of the data: they stand at
    the old [end], no other byte of the memory has changed, [start] has not
    moved, and [end] has gone through that many iterations of the increment
    loop, which short of the wrap puts it [scull_fifo_elemsz] bytes further.
    A write that finds the mutex free and the test of line 137 false does
    return. *)
Theorem write_truncates_to_elemsz (g : globals) (data : list byte) :
  0 <= scull_fifo_elemsz g < 2 ^ 31 ->
  scull_fifo_elemsz g < Z.of_nat (length data) ->
  (forall evs v,
      returned (snd (run g (write_call data) evs)) = Some v ->
      v <> - EFAULT ->
      v = scull_fifo_elemsz g /\
      start (fst (run g (write_call data) evs)) = start g /\
      end_ (fst (run g (write_call data) evs))
        = advance g (Z.to_nat (scull_fifo_elemsz g)) (end_ g) /\
      (end_ g - orig g + scull_fifo_elemsz g <= scull_fifo_size g ->
       end_ (fst (run g (write_call data) evs))
         = end_ g + scull_fifo_elemsz g) /\
      load (kmem (fst (run g (write_call data) evs))) (end_ g)
           (Z.to_nat (scull_fifo_elemsz g))
        = firstn (Z.to_nat (scull_fifo_elemsz g)) data /\
      (forall x, x < end_ g \/ end_ g + scull_fifo_elemsz g <= x ->
                 kmem (fst (run g (write_call data) evs)) x = kmem g x)) /\
  (ready (WR data) g ->
   returned (snd (finish g (write_call data) Run))
     = Some (scull_fifo_elemsz g)).
Proof.
  intros He Hlen.
  assert (Hacc : accepted g data = scull_fifo_elemsz g).
  { unfold accepted, size_t_of_int. rewrite Z.mod_small by lia.
    destruct (Z.gtb_spec (Z.of_nat (length data)) (scull_fifo_elemsz g)); lia. }
  split.
  - intros evs v Hret Hv.
    pose proof (write_summary _ g data evs (Forall_faults_any evs))
      as (_ & _ & Hs & Hpc).
    unfold returned in Hret.
    destruct (pc (snd (run g (write_call data) evs))); try discriminate.
    injection Hret as ->.
    destruct Hpc as (_ & [(Hv' & _) | (Hv' & Hm & Hend)]); [contradiction|].
    rewrite Hacc in *.
    rewrite increment_small in Hend by (unfold INT_MAX; lia).
    assert (Hn : length (firstn (Z.to_nat (scull_fifo_elemsz g)) data)
                 = Z.to_nat (scull_fifo_elemsz g))
      by (apply firstn_length_le; lia).
    repeat split; auto.
    + intros Hw. rewrite Hend, advance_linear; lia.
    + rewrite Hm.
      rewrite <- (load_store (firstn (Z.to_nat (scull_fifo_elemsz g)) data)
                    (kmem g) (end_ g)) at 2.
      now rewrite Hn.
    + intros x [Hx | Hx]; rewrite Hm.
      * now apply store_below.
      * apply store_above. lia.
  - intros Hr. rewrite <- Hacc. apply (finish_ready g (WR data) Hr).
Qed.

Lemma write_truncates_to_elemsz_witness :
  returned (snd (finish (boot 4 10) (write_call six) Run))
    = Some (scull_fifo_elemsz (boot 4 10)) /\
  end_ (fst (run (boot 4 10) (write_call six) (repeat Run 12)))
    = end_ (boot 4 10) + scull_fifo_elemsz (boot 4 10) /\
  load (kmem (fst (run (boot 4 10) (write_call six) (repeat Run 12))))
       (end_ (boot 4 10)) (Z.to_nat (scull_fifo_elemsz (boot 4 10)))
    = firstn (Z.to_nat (scull_fifo_elemsz (boot 4 10))) six.
Proof.
  assert (H1 : 0 <= scull_fifo_elemsz (boot 4 10) < 2 ^ 31)
    by (vm_compute; split; [discriminate | reflexivity]).
  assert (H2 : scull_fifo_elemsz (boot 4 10) < Z.of_nat (length six))
    by (vm_compute; reflexivity).
  destruct (write_truncates_to_elemsz (boot 4 10) six H1 H2) as [Hrun Hready].
  split.
  - apply Hready. split; vm_compute; reflexivity.
  - destruct (Hrun (repeat Run 12) 4) as (_ & _ & _ & Hend & Hload & _);
      [vm_compute; reflexivity | discriminate |].
    split; [|exact Hload].
    apply Hend. apply Z.leb_le. vm_compute. reflexivity.
Defined.

(** ** Posting the other side *)

(** C9, as stated, fails: a write of two bytes into the freshly initialised
    FIFO succeeds and leaves [queue_empty] at the count it had. *)
Lemma successful_write_posts_nothing :
  ~ signals_other_side (boot 4 10) (WR AB) (repeat Run 12).
Proof.
  intros H. specialize (H 2 eq_refl ltac:(discriminate)).
  vm_compute in H. discriminate.
Qed.

(** C9, amended.  The post of lines 119 and 170 stands under the guard
    [sem.count < 0]: a call that returns, having found the semaphore of the
    other side with a count of zero or more, has left it as it was.  When
    the call returns a count, that is the number of bytes it was asked to
    move (after truncation, for a write), and its cursor has gone through
    the increment loop for that count, which short of the wrap puts it that
    many bytes further; when no wait was interrupted the mutex has the count
    it had before the call.  A call that finds the mutex free and no reason
    to sleep does return. *)
Theorem opposite_side_is_left_alone (g : globals) (c : call) :
  (forall evs v,
      returned (snd (run g (enter c) evs)) = Some v ->
      (0 <= count (opposite c g) ->
       opposite c (fst (run g (enter c) evs)) = opposite c g) /\
      (v <> - EFAULT ->
       v = requested c g /\
       cursor c (fst (run g (enter c) evs))
         = increment g (requested c g) (cursor c g) /\
       (0 <= requested c g <= INT_MAX ->
        cursor c g - orig g + requested c g <= scull_fifo_size g ->
        cursor c (fst (run g (enter c) evs))
          = cursor c g + requested c g)) /\
      (Forall no_signal evs ->
       count (lock (fst (run g (enter c) evs))) = count (lock g))) /\
  (ready c g -> returned (snd (finish g (enter c) Run)) = Some (requested c g)).
Proof.
  split; [|apply finish_ready].
  intros evs v Hret.
  assert (Hlock : Forall no_signal evs ->
            count (lock (fst (run g (enter c) evs))) = count (lock g)).
  { intros Hev. rewrite lock_summary by assumption.
    unfold returned in Hret.
    destruct (pc (snd (run g (enter c) evs))); try discriminate.
    destruct c; cbn; lia. }
  assert (Hlin : forall p,
            0 <= requested c g <= INT_MAX ->
            p - orig g + requested c g <= scull_fifo_size g ->
            increment g (requested c g) p = p + requested c g).
  { intros p Hr Hw. rewrite increment_small, advance_linear; lia. }
  destruct c as [n|d]; cbn [enter opposite requested cursor] in *.
  - pose proof (read_summary g n evs) as (_ & _ & _ & _ & Hpc).
    unfold returned in Hret.
    destruct (pc (snd (run g (read_call n) evs))); try discriminate.
    injection Hret as ->.
    destruct Hpc as (Hq & [(Hv & _) | (Hv & Hs & _)]);
      rewrite post_if_negative_never in Hq;
      repeat split; auto; try (intros; contradiction).
    intros. rewrite Hs. now apply Hlin.
  - pose proof (write_summary _ g d evs (Forall_faults_any evs))
      as (_ & _ & _ & Hpc).
    unfold returned in Hret.
    destruct (pc (snd (run g (write_call d) evs))); try discriminate.
    injection Hret as ->.
    destruct Hpc as (Hq & [(Hv & _) | (Hv & _ & He)]);
      rewrite post_if_negative_never in Hq;
      repeat split; auto; try (intros; contradiction).
    intros. rewrite He. now apply Hlin.
Qed.

Lemma opposite_side_is_left_alone_witness :
  returned (snd (finish (boot 4 10) (write_call AB) Run)) = Some 2 /\
  queue_empty (fst (finish (boot 4 10) (write_call AB) Run))
    = queue_empty (boot 4 10) /\
  end_ (fst (finish (boot 4 10) (write_call AB) Run)) = end_ (boot 4 10) + 2 /\
  count (lock (fst (finish (boot 4 10) (write_call AB) Run))) = 1.
Proof.
  pose proof (opposite_side_is_left_alone (boot 4 10) (WR AB))
    as [Hrun Hready].
  destruct (Hrun (repeat Run 12) 2 eq_refl) as (Hq & Hc & Hl).
  destruct (Hc ltac:(discriminate)) as (_ & _ & Hend).
  split; [|split; [|split]].
  - apply Hready. split; vm_compute; reflexivity.
  - apply Hq. vm_compute. discriminate.
  - apply Hend.
    + vm_compute. split; discriminate.
    + apply Z.leb_le. vm_compute. reflexivity.
  - unfold finish. cbn [enter] in Hl. rewrite Hl; [reflexivity|].
    apply Forall_repeat. discriminate.
Defined.

(** ** First in, first out *)

Lemma prefix_app (x a b : list byte) : prefix a b -> prefix (x ++ a) (x ++ b).
Proof. intros [k ->]. exists k. now rewrite app_assoc. Qed.

(** Every statement brings a call closer to its return. *)
Lemma step_decreases g t e g' t' :
  step g t e = Some (g', t') ->
  (remaining (pc t') < remaining (pc t))%nat.
Proof.
  intros H. break_step H; cbn; lia.
Qed.

Lemma run_stuck g t e n :
  step g t e = None -> run g t (repeat e n) = (g, t).
Proof.
  intros H. induction n as [|n IH]; cbn [repeat run]; auto.
  now rewrite H.
Qed.

(** Given as many events as it has statements left, a call runs until it
    returns or goes to sleep. *)
Lemma run_settles e n :
  forall g t,
    (remaining (pc t) <= n)%nat ->
    step (fst (run g t (repeat e n))) (snd (run g t (repeat e n))) e = None.
Proof.
  induction n as [|n IH]; intros g t Hn.
  - cbn. unfold step. destruct (pc t); cbn in Hn; try lia. reflexivity.
  - cbn [repeat run]. destruct (step g t e) as [[g' t']|] eqn:E.
    + apply IH. apply step_decreases in E. lia.
    + rewrite run_stuck by assumption. exact E.
Qed.

Lemma finish_settles g c e :
  step (fst (finish g (enter c) e)) (snd (finish g (enter c) e)) e = None.
Proof.
  apply run_settles. destruct c; cbn; lia.
Qed.

Lemma increment_of_to_nat (g : globals) (count p : Z) :
  increment g (Z.of_nat (Z.to_nat count)) p = increment g count p.
Proof.
  destruct (Z.le_gt_cases 0 count).
  - now rewrite Z2Nat.id.
  - rewrite !increment_nothing by lia. reflexivity.
Qed.

(** The effect of one call. *)
Lemma call_effect g c e :
  effect g (outcome c (snd (finish g (enter c) e)))
         (fst (finish g (enter c) e)).
Proof.
  pose proof (finish_settles g c e) as Hst.
  unfold finish in *. unfold outcome, returned.
  destruct c as [n|d]; cbn [enter] in *.
  - pose proof (read_summary g n (repeat e 12)) as (Hc & _ & Hm & He & Hpc).
    destruct (run g (read_call n) (repeat e 12)) as [g1 t1].
    cbn [fst snd] in *. unfold step, scull_read, scull_write in Hst.
    destruct (pc t1) eqn:Hp; try contradiction; try discriminate Hst;
      (split; [exact Hc|]);
      try (destruct Hpc as (Hs & _); cbn;
           repeat split; auto; intros; now rewrite Hm).
    destruct Hpc as (_ & Hpc).
    destruct (Z.eqb_spec v (- EFAULT)) as [Hv|Hv]; cbn.
    + destruct Hpc as [(_ & Hs) | (<- & Hs & _)];
        repeat split; auto; try (intros; now rewrite Hm).
      rewrite Hs. subst v. apply increment_nothing. unfold EFAULT. lia.
    + destruct Hpc as [(Hv' & _) | (_ & Hs & ->)]; [contradiction|].
      rewrite load_length, increment_of_to_nat. auto.
  - pose proof (write_summary _ g d (repeat e 12) (Forall_faults_any _))
      as (Hc & _ & Hs & Hpc).
    pose proof (accepted_bounds g d) as Hb.
    destruct (run g (write_call d) (repeat e 12)) as [g1 t1].
    cbn [fst snd] in *. unfold step, scull_read, scull_write in Hst.
    destruct (pc t1) eqn:Hp; try contradiction; try discriminate Hst;
      (split; [exact Hc|]);
      try (destruct Hpc as (_ & Hm & He & _); cbn;
           repeat split; auto; intros; now rewrite Hm).
    destruct Hpc as (_ & Hpc).
    destruct (Z.eqb_spec v (- EFAULT)) as [Hv|Hv]; cbn.
    + destruct Hpc as [(_ & He & s & _ & Hm) | (Hv' & _)];
        [|unfold EFAULT in Hv; lia].
      repeat split; auto. intros x Hx. rewrite Hm. now apply store_below.
    + destruct Hpc as [(Hv' & _) | (-> & Hm & He)]; [contradiction|].
      rewrite firstn_length_le, increment_of_to_nat by lia. auto.
Qed.

(** Until the write cursor has run into [orig + scull_fifo_size], and as
    long as no read takes more than is queued, what the readers get is a
    prefix of what was queued at the beginning followed by what the writers
    put in. *)
Lemma fifo_queue :
  forall cs g,
    start g <= end_ g ->
    within (end_ g - start g) (outcomes g cs) ->
    end_ g - orig g + Z.of_nat (length (bytes_written (outcomes g cs)))
      <= scull_fifo_size g ->
    end_ g - start g + Z.of_nat (length (bytes_written (outcomes g cs)))
      <= INT_MAX ->
    prefix (bytes_read (outcomes g cs))
           (load (kmem g) (start g) (Z.to_nat (end_ g - start g))
              ++ bytes_written (outcomes g cs)).
Proof.
  unfold outcomes.
  induction cs as [|[c e] cs IH]; intros g Hse Hin Hcap Hint.
  - cbn [serial snd bytes_read bytes_written].
    eexists. reflexivity.
  - cbn [serial snd] in *.
    pose proof (call_effect g c e) as ((_ & Hsz & Ho) & Heff).
    specialize (IH (fst (finish g (enter c) e))).
    destruct (finish g (enter c) e) as [g1 t1]. cbn [fst snd] in *.
    destruct (outcome c t1) as [bs|bs|];
      cbn [effect within bytes_read bytes_written] in *.
    + (* a read *)
      destruct Heff as (Hbs & Hs1 & He1 & Hm1), Hin as (Hle & Hin).
      rewrite increment_small, Nat2Z.id in Hs1 by lia.
      rewrite advance_linear in Hs1 by lia.
      rewrite Hs1, He1, Hm1, Hsz, Ho in IH.
      replace (Z.to_nat (end_ g - start g))
        with (length bs + Z.to_nat (end_ g - (start g + Z.of_nat (length bs))))%nat
        by lia.
      rewrite load_app, <- Hbs, <- app_assoc.
      apply prefix_app, IH; try lia.
      now replace (end_ g - (start g + Z.of_nat (length bs)))
        with (end_ g - start g - Z.of_nat (length bs)) by lia.
    + (* a write *)
      destruct Heff as (Hm1 & He1 & Hs1).
      rewrite length_app, Nat2Z.inj_add in Hcap, Hint.
      rewrite increment_small, Nat2Z.id in He1 by lia.
      rewrite advance_linear in He1 by lia.
      rewrite Hs1, He1, Hm1, Hsz, Ho in IH.
      replace (Z.to_nat (end_ g + Z.of_nat (length bs) - start g))
        with (Z.to_nat (end_ g - start g) + length bs)%nat in IH by lia.
      rewrite load_app in IH.
      replace (start g + Z.of_nat (Z.to_nat (end_ g - start g)))
        with (end_ g) in IH by lia.
      rewrite load_store in IH.
      rewrite (load_ext _ (store (kmem g) (end_ g) bs) (kmem g)) in IH
        by (intros; apply store_below; lia).
      rewrite <- app_assoc in IH.
      rewrite app_assoc. rewrite <- app_assoc. apply IH; try lia.
      now replace (end_ g + Z.of_nat (length bs) - start g)
        with (end_ g - start g + Z.of_nat (length bs)) by lia.
    + (* a failed call *)
      destruct Heff as (Hs1 & He1 & Hm1).
      rewrite Hs1, He1, Hsz, Ho in IH.
      rewrite (load_ext _ (kmem g1) (kmem g)) in IH
        by (intros; apply Hm1; lia).
      apply IH; auto.
Qed.

(** ** Several callers, no interrupted wait *)

Lemma held_cases (l : label) : held l = 0 \/ held l = 1.
Proof. destruct l; cbn; auto. Qed.

Lemma tested_cursors g g' l :
  start g' = start g -> end_ g' = end_ g ->
  scull_fifo_size g' = scull_fifo_size g ->
  tested g l -> tested g' l.
Proof.
  intros Hs He Hz. unfold tested, full_test. now rewrite Hs, He, Hz.
Qed.

Lemma tested_outside g g' l : held l = 0 -> tested g l -> tested g' l.
Proof. destruct l; cbn; auto; discriminate. Qed.

(** One statement of one caller. *)
Lemma step_local g t e g' t' :
  no_signal e ->
  count (queue_empty g) = 0 -> count (queue_full g) = 0 ->
  tested g (pc t) ->
  step g t e = Some (g', t') ->
  count (queue_empty g') = 0 /\ count (queue_full g') = 0 /\
  count (lock g') = count (lock g) + held (pc t) - held (pc t') /\
  (held (pc t) = 0 -> held (pc t') = 1 -> 0 < count (lock g)) /\
  tested g' (pc t') /\
  (held (pc t) = 0 ->
   start g' = start g /\ end_ g' = end_ g /\
   scull_fifo_size g' = scull_fifo_size g).
Proof.
  unfold no_signal. intros He Hqe Hqf Ht H.
  break_step H; cbn in *; try contradiction; try congruence;
    unfold post_if_negative; rewrite ?Hqe, ?Hqf; cbn;
    repeat match goal with
           | H : (_ <? _) = true |- _ => apply Z.ltb_lt in H
           | H : (_ =? _) = false |- _ => apply Z.eqb_neq in H
           end;
    repeat split; auto; try lia; try discriminate.
Qed.

Lemma sys_inv_step s ie s' :
  no_signal (snd ie) -> sys_inv s -> sys_step s ie = Some s' -> sys_inv s'.
Proof.
  destruct s as [g p], ie as [i e]. unfold sys_step, sys_inv. cbn [fst snd].
  intros He (Hqe & Hqf & Hl & Hfree & Huniq & Htest) H.
  destruct (step g (p i) e) as [[g' t']|] eqn:Hstep; try discriminate.
  injection H as <-. cbn [fst snd].
  destruct (step_local _ _ _ _ _ He Hqe Hqf (Htest i) Hstep)
    as (Hqe' & Hqf' & Hl' & Hacq & Ht' & Hcur).
  pose proof (held_cases (pc (p i))) as Hh.
  pose proof (held_cases (pc t')) as Hh'.
  assert (Hin : held (pc (p i)) = 1 -> count (lock g) = 0).
  { intros Hi. destruct (Z.eq_dec (count (lock g)) 1) as [E|E]; [|lia].
    specialize (Hfree E i). lia. }
  assert (Hother : forall k, k <> i -> held (pc (p k)) = 1 ->
                     held (pc (p i)) = 0 /\ count (lock g) = 0).
  { intros k Hk Hhk. split.
    - destruct Hh as [Hh|Hh]; auto. specialize (Huniq _ _ Hhk Hh). lia.
    - destruct (Z.eq_dec (count (lock g)) 1) as [E|E]; [|lia].
      specialize (Hfree E k). lia. }
  repeat split; auto; try lia.
  - intros Hc k. unfold update. destruct (Nat.eqb_spec k i) as [->|Hk].
    + destruct Hh'; auto. destruct Hh; lia.
    + destruct (held_cases (pc (p k))) as [|Hhk]; auto.
      destruct (Hother k Hk Hhk) as (Hi0 & Hc0).
      destruct Hh'; lia.
  - intros k1 k2. unfold update.
    destruct (Nat.eqb_spec k1 i) as [->|Hk1], (Nat.eqb_spec k2 i) as [->|Hk2];
      auto; intros H1 H2.
    + destruct (Hother k2 Hk2 H2) as (Hi0 & Hc0).
      specialize (Hacq Hi0 H1). lia.
    + destruct (Hother k1 Hk1 H1) as (Hi0 & Hc0).
      specialize (Hacq Hi0 H2). lia.
  - intros k. unfold update. destruct (Nat.eqb_spec k i) as [->|Hk]; auto.
    destruct Hh as [Hh|Hh].
    + destruct (Hcur Hh) as (? & ? & ?). eapply tested_cursors; eauto.
    + apply (tested_outside g); auto.
      destruct (held_cases (pc (p k))) as [|Hhk]; auto.
      specialize (Huniq _ _ Hhk Hh). contradiction.
Qed.

Lemma sys_inv_init g p : booted g -> (forall i, fresh (p i)) -> sys_inv (g, p).
Proof.
  intros (Hl & Hqe & Hqf) Hp. unfold sys_inv. cbn [fst snd].
  assert (Hh : forall i, held (pc (p i)) = 0)
    by (intros i; destruct (Hp i) as [-> | ->]; reflexivity).
  repeat split; auto; try lia.
  - intros i j Hi. rewrite Hh in Hi. discriminate.
  - intros i. destruct (Hp i) as [-> | ->]; exact I.
Qed.

Lemma sys_inv_run sched :
  Forall (fun ie => no_signal (snd ie)) sched ->
  forall s, sys_inv s -> sys_inv (sys_run s sched).
Proof.
  induction 1 as [|ie sched Hie _ IH]; intros s Hs; cbn [sys_run]; auto.
  destruct (sys_step s ie) as [s'|] eqn:E; auto.
  eapply IH, sys_inv_step; eauto.
Qed.

(** Mutual exclusion: when no wait is interrupted, at most one caller stands
    between taking the mutex and releasing it. *)
Lemma mutual_exclusion g p sched i j :
  booted g ->
  (forall k, fresh (p k)) ->
  Forall (fun ie => no_signal (snd ie)) sched ->
  held (pc (snd (sys_run (g, p) sched) i)) = 1 ->
  held (pc (snd (sys_run (g, p) sched) j)) = 1 ->
  i = j.
Proof.
  intros Hg Hp Hs.
  pose proof (sys_inv_run sched Hs (g, p) (sys_inv_init g p Hg Hp))
    as (_ & _ & _ & _ & Hu & _).
  apply Hu.
Qed.

(** Whatever the schedule and the signals, the two flow-control semaphores
    of an initialised driver keep the count 0: no call ever finds a negative
    count to post. *)
Lemma flow_step g t e g' t' :
  count (queue_empty g) = 0 /\ count (queue_full g) = 0 ->
  step g t e = Some (g', t') ->
  count (queue_empty g') = 0 /\ count (queue_full g') = 0.
Proof.
  intros (Hqe & Hqf) H.
  break_step H; cbn in *; unfold post_if_negative; rewrite ?Hqe, ?Hqf; cbn;
    repeat match goal with
           | H : (_ <? _) = true |- _ => apply Z.ltb_lt in H
           end;
    auto; lia.
Qed.

Lemma flow_semaphores_stay_zero sched :
  forall g p,
    count (queue_empty g) = 0 /\ count (queue_full g) = 0 ->
    count (queue_empty (fst (sys_run (g, p) sched))) = 0 /\
    count (queue_full (fst (sys_run (g, p) sched))) = 0.
Proof.
  induction sched as [|[i e] sched IH]; intros g p H; cbn [sys_run]; auto.
  unfold sys_step. cbn [fst snd].
  destruct (step g (p i) e) as [[g' t']|] eqn:E; auto.
  apply IH. eapply flow_step; eauto.
Qed.

(** C1, as stated, fails: after a write of two bytes a read of five returns
    five bytes, the two written and three that no writer put in. *)
Lemma read_past_the_queue_breaks_fifo :
  ~ fifo (boot 4 10) [(WR AB, Run); (RD 5, Run)].
Proof.
  unfold fifo.
  assert (E : outcomes (boot 4 10) [(WR AB, Run); (RD 5, Run)]
              = [Put AB; Got [x41; x42; x00; x00; x00]])
    by (vm_compute; reflexivity).
  rewrite E. intros [k Hk]. discriminate.
Qed.

(** C1, amended.  For calls made one after the other on an empty FIFO, as
    long as every read asks for no more than is queued when it is made and
    the bytes written stay within the first [scull_fifo_size] bytes of the
    block that kmalloc handed out (and short of the point where the
    increment loop wraps), the bytes handed to the readers, put end to end,
    are a prefix of the bytes taken from the writers, put end to end. *)
Theorem fifo_within_the_array (g : globals) (cs : list (call * event)) :
  scull_fifo_size g <= INT_MAX ->
  start g = end_ g ->
  within 0 (outcomes g cs) ->
  in_fifo g (end_ g) (Z.of_nat (length (bytes_written (outcomes g cs)))) ->
  end_ g - orig g + Z.of_nat (length (bytes_written (outcomes g cs)))
    <= scull_fifo_size g ->
  prefix (bytes_read (outcomes g cs)) (bytes_written (outcomes g cs)).
Proof.
  intros Hint Hse Hin (base & sz & _ & Hb & _ & Hfit) Hcap.
  pose proof (fifo_queue cs g) as H.
  rewrite Hse, Z.sub_diag in H. apply H; auto; lia.
Qed.

Lemma fifo_within_the_array_witness :
  prefix
    (bytes_read (outcomes (boot 4 10)
       [(WR AB, Run); (WR AB, Fault [x41]); (WR AB, Run); (RD 3, Run);
        (RD 1, Run); (RD 1, Run); (WR AB, Signal)]))
    (bytes_written (outcomes (boot 4 10)
       [(WR AB, Run); (WR AB, Fault [x41]); (WR AB, Run); (RD 3, Run);
        (RD 1, Run); (RD 1, Run); (WR AB, Signal)])).
Proof.
  apply (fifo_within_the_array (boot 4 10)).
  - vm_compute. discriminate.
  - vm_compute. reflexivity.
  - vm_compute. repeat split; discriminate.
  - exists fifo_array, 120. split; [left; vm_compute; reflexivity |].
    vm_compute. repeat split; discriminate.
  - vm_compute. discriminate.
Defined.

(** ** When a write goes to sleep *)

(** A writer asleep on [queue_full] stays so until the semaphore is posted
    or a signal arrives. *)
Lemma asleep_on_queue_full g t n :
  pc t = L141 -> count (queue_full g) <= 0 ->
  run g t (repeat Run n) = (g, t).
Proof.
  intros Hpc Hq. induction n as [|n IH]; cbn [repeat run]; auto.
  unfold step, scull_write. rewrite Hpc. unfold down_or_log, down_interruptible.
  destruct (Z.ltb_spec 0 (count (queue_full g))); [lia | exact IH].
Qed.

(** With the mutex free and [queue_full] not posted, a write goes to sleep
    at line 141 exactly when the test of line 137 holds: [end] is one byte,
    or [scull_fifo_size] bytes, past [start]. *)
Lemma write_sleeps_iff g d :
  0 < count (lock g) -> count (queue_full g) <= 0 ->
  (full_test g = true -> pc (snd (finish g (write_call d) Run)) = L141) /\
  (returned (snd (finish g (write_call d) Run)) = None <->
   end_ g - start g = 1 \/ end_ g - start g = scull_fifo_size g).
Proof.
  intros Hl Hq.
  assert (Hfull : full_test g = true <->
            end_ g - start g = 1 \/ end_ g - start g = scull_fifo_size g).
  { unfold full_test. rewrite orb_true_iff, !Z.eqb_eq. tauto. }
  assert (Hsleep : full_test g = true ->
            pc (snd (finish g (write_call d) Run)) = L141).
  { intros Hf. apply Z.ltb_lt in Hl.
    unfold finish. change (repeat Run 12) with (Run :: Run :: Run :: Run :: repeat Run 8).
    cbn [run]. unfold step at 1. cbn [pc write_call]. unfold scull_write at 1.
    cbn [pc write_call t_count].
    destruct (Z.of_nat (length d) >? size_t_of_int (scull_fifo_elemsz g));
      cbn -[repeat run]; unfold down_or_log, down_interruptible; rewrite Hl;
      cbn -[full_test repeat run];
      change (full_test (set_lock {| count := count (lock g) - 1 |} g))
        with (full_test g); rewrite Hf; cbn -[repeat run];
      rewrite asleep_on_queue_full; auto. }
  split; auto. rewrite <- Hfull. split.
  - intros Hnone. destruct (full_test g) eqn:Hf; auto.
    change (write_call d) with (enter (WR d)) in Hnone.
    rewrite (finish_ready g (WR d)) in Hnone; [discriminate|].
    split; auto.
  - intros Hf. unfold returned. now rewrite (Hsleep Hf).
Qed.

Lemma run_app g t evs1 evs2 :
  run g t (evs1 ++ evs2)
  = run (fst (run g t evs1)) (snd (run g t evs1)) evs2.
Proof.
  revert g t. induction evs1 as [|e evs1 IH]; intros g t; cbn [app run fst snd].
  - reflexivity.
  - destruct (step g t e) as [[g' t']|]; apply IH.
Qed.

(** C3 on the code.  With one byte queued in a FIFO of ten a write goes to
    sleep on [queue_full] (having released the mutex and logged it) and no
    passage of time wakes it; with nine bytes queued, one short of the
    capacity, a write goes through and makes it ten. *)
Theorem write_sleeps_on_one_byte_not_on_nine :
  (occupied one_queued = 1 /\ scull_fifo_size one_queued = 10 /\
   pc (snd (finish one_queued (write_call [x42]) Run)) = L141 /\
   count (lock (fst (finish one_queued (write_call [x42]) Run))) = 1 /\
   In "Queue full, going to sleep"%string
      (klog (fst (finish one_queued (write_call [x42]) Run))) /\
   forall n,
     returned (snd (run one_queued (write_call [x42])
                      (repeat Run 12 ++ repeat Run n))) = None) /\
  (occupied nine_queued = 9 /\ scull_fifo_size nine_queued = 10 /\
   returned (snd (finish nine_queued (write_call [x42]) Run)) = Some 1 /\
   occupied (fst (finish nine_queued (write_call [x42]) Run)) = 10).
Proof.
  conjuncts; try evaluate.
  - vm_compute. auto 10.
  - intros n. rewrite run_app.
    rewrite asleep_on_queue_full.
    + vm_compute. reflexivity.
    + vm_compute. reflexivity.
    + vm_compute. discriminate.
Qed.

(** ** Where the cursors go *)

(** The loop lets a pointer that stands on the last byte of the ring step
    to [orig + scull_fifo_size], one past it. *)
Lemma bump_past_last_byte (g : globals) (p : Z) :
  p - orig g = scull_fifo_size g - 1 ->
  bump g p - orig g = scull_fifo_size g.
Proof.
  intros H. unfold bump.
  destruct (Z.geb_spec (p - orig g) (scull_fifo_size g)); lia.
Qed.

(** The loop goes round in [scull_fifo_size + 1] steps. *)
Lemma advance_round (g : globals) :
  0 <= scull_fifo_size g ->
  advance g (Z.to_nat (scull_fifo_size g + 1)) (orig g) = orig g.
Proof.
  intros H.
  replace (Z.to_nat (scull_fifo_size g + 1))
    with (Z.to_nat (scull_fifo_size g) + 1)%nat by lia.
  rewrite advance_add.
  rewrite (advance_linear g _ (orig g)) by lia.
  cbn [advance]. apply bump_wraps. lia.
Qed.

(** Whatever address kmalloc returns, initialisation leaves [orig] null. *)
Lemma init_leaves_orig_null (a elemsz size : Z) (m : memory) :
  orig (fst (scull_init_module 0 0 a (module_load elemsz size m))) = 0.
Proof.
  unfold scull_init_module. cbn [Z.ltb Z.compare Z.eqb negb].
  destruct (a =? 0); reflexivity.
Qed.

(** C5 on the code.  In the driver as initialised [orig] is still the null
    pointer: after writing five bytes, reading them and writing five more
    into a FIFO of eight, [end] stands ten bytes into the array, and the
    pointers have never come back.  Had [orig] pointed at the array, writing
    five bytes, reading them and writing three more would leave [end] at
    offset eight, which is not below the capacity. *)
Theorem cursor_leaves_the_ring :
  (orig (boot 8 8) = 0 /\
   end_ (after (boot 8 8) [(WR five, Run); (RD 5, Run); (WR five, Run)])
     - fifo_array = 10 /\
   start (after (boot 8 8) [(WR five, Run); (RD 5, Run); (WR five, Run);
                            (RD 5, Run)])
     - fifo_array = 10) /\
  (orig (based 8 8) = fifo_array /\
   scull_fifo_size (based 8 8) = 8 /\
   end_ (after (based 8 8) [(WR five, Run); (RD 5, Run); (WR ABC, Run)])
     - fifo_array = 8).
Proof. conjuncts; evaluate. Qed.

(** ** Interrupted waits *)

(** A call returns -EFAULT or the count it worked with, never anything
    else: no path returns the result of [down_interruptible]. *)
Lemma no_call_returns_EINTR g c evs v :
  returned (snd (run g (enter c) evs)) = Some v ->
  v = - EFAULT \/ v = requested c g.
Proof.
  intros Hret. unfold returned in Hret.
  destruct c as [n|d]; cbn [enter requested] in *.
  - pose proof (read_summary g n evs) as (_ & _ & _ & _ & Hpc).
    destruct (pc (snd (run g (read_call n) evs))); try discriminate.
    injection Hret as ->. destruct Hpc as (_ & [(Hv & _) | (Hv & _)]); auto.
  - pose proof (write_summary _ g d evs (Forall_faults_any evs))
      as (_ & _ & _ & Hpc).
    destruct (pc (snd (run g (write_call d) evs))); try discriminate.
    injection Hret as ->. destruct Hpc as (_ & [(Hv & _) | (Hv & _)]); auto.
Qed.

(** C8 on the code.  A reader that finds the FIFO empty and is interrupted
    in its wait on [queue_empty] logs the failure, goes on to copy five
    bytes nobody wrote and returns 5.  A reader interrupted in its wait for
    the mutex, which a writer holds, logs the failure, enters the critical
    section all the same and, finding the FIFO empty, releases the mutex the
    writer is still holding. *)
Theorem interrupted_wait_is_logged_and_ignored :
  (returned (snd (run (boot 4 10) (read_call 5)
                    [Run; Run; Run; Signal; Run; Run; Run; Run; Run; Run]))
     = Some 5 /\
   In "Could not acquire 'queue_empty' semaphore."%string
      (klog (fst (run (boot 4 10) (read_call 5)
                    [Run; Run; Run; Signal; Run; Run; Run; Run; Run; Run])))) /\
  (pc (snd (sys_run (boot 4 10, writer_and_readers)
              [(0, Run); (0, Run)]%nat) 0%nat) = L137 /\
   count (lock (fst (sys_run (boot 4 10, writer_and_readers)
                       [(0, Run); (0, Run)]%nat))) = 0 /\
   pc (snd (sys_run (boot 4 10, writer_and_readers)
              [(0, Run); (0, Run); (1, Signal)]%nat) 1%nat) = L87 /\
   In "Could not acquire 'lock' semaphore."%string
      (klog (fst (sys_run (boot 4 10, writer_and_readers)
                    [(0, Run); (0, Run); (1, Signal)]%nat))) /\
   pc (snd (sys_run (boot 4 10, writer_and_readers)
              [(0, Run); (0, Run); (1, Signal); (1, Run); (1, Run)]%nat) 0%nat)
     = L137 /\
   count (lock (fst (sys_run (boot 4 10, writer_and_readers)
                       [(0, Run); (0, Run); (1, Signal); (1, Run); (1, Run)]%nat)))
     = 1).
Proof.
  conjuncts; try evaluate; vm_compute; auto 10.
Qed.

(** ** The guards of the copies *)

(** C4, as stated, fails: a reader that finds the FIFO empty and whose wait
    on [queue_empty] ends (here, by a signal) takes the mutex and stands
    before the copy of line 99 with [start == end]. *)
Lemma woken_reader_copies_from_empty_fifo :
  ~ always_guarded (boot 4 10, readers 5).
Proof.
  intros H.
  destruct (H [(0, Run); (0, Run); (0, Run); (0, Signal); (0, Run); (0, Run)]%nat
              0%nat) as [Hr _].
  apply Hr; vm_compute; reflexivity.
Qed.

(** A call that wakes from its wait takes the mutex and goes to its copy
    without looking at the cursors again. *)
Lemma no_test_after_wait g t :
  0 < count (lock g) ->
  (pc t = L93 ->
   pc (snd (run g t [Run; Run])) = L99 /\
   start (fst (run g t [Run; Run])) = start g /\
   end_ (fst (run g t [Run; Run])) = end_ g) /\
  (pc t = L144 ->
   pc (snd (run g t [Run; Run])) = L150 /\
   start (fst (run g t [Run; Run])) = start g /\
   end_ (fst (run g t [Run; Run])) = end_ g).
Proof.
  intros Hl. apply Z.ltb_lt in Hl.
  split; intros Hpc.
  - assert (E : step g t Run
                = Some (set_lock {| count := count (lock g) - 1 |} g,
                        goto L97 t)).
    { unfold step, scull_read, scull_write. rewrite Hpc.
      unfold down_or_log, down_interruptible.
      now rewrite Hl. }
    cbn [run]. rewrite E. cbn. auto.
  - assert (E : step g t Run
                = Some (set_lock {| count := count (lock g) - 1 |} g,
                        goto L148 t)).
    { unfold step, scull_read, scull_write. rewrite Hpc.
      unfold down_or_log, down_interruptible.
      now rewrite Hl. }
    cbn [run]. rewrite E. cbn. auto.
Qed.

(** C4, amended.  From the state the initialisation leaves, with any number
    of calls under way and under any schedule in which no wait is
    interrupted, a read stands before its copy only with [start != end] and
    a write only when the test of line 137 is false.  The test is made once:
    a call that has waited takes the mutex again and goes to its copy
    whatever the cursors are. *)
Theorem copies_guarded_without_signals :
  (forall (g : globals) (p : pool) (sched : list (nat * event)) (i : nat),
      booted g ->
      (forall j, fresh (p j)) ->
      Forall (fun ie => no_signal (snd ie)) sched ->
      copy_guarded (fst (sys_run (g, p) sched))
                   (snd (sys_run (g, p) sched) i)) /\
  (forall (g : globals) (t : thread),
      0 < count (lock g) ->
      (pc t = L93 -> pc (snd (run g t [Run; Run])) = L99) /\
      (pc t = L144 -> pc (snd (run g t [Run; Run])) = L150)).
Proof.
  split.
  - intros g p sched i Hg Hp Hs.
    pose proof (sys_inv_run sched Hs (g, p) (sys_inv_init g p Hg Hp))
      as (_ & _ & _ & _ & _ & Ht).
    specialize (Ht i). unfold copy_guarded.
    split; intros Hpc; rewrite Hpc in Ht; exact Ht.
  - intros g t Hl. destruct (no_test_after_wait g t Hl) as [Hr Hw].
    split; intros Hpc; [now apply Hr | now apply Hw].
Qed.

Lemma copies_guarded_without_signals_witness :
  copy_guarded
    (fst (sys_run (three_queued, readers 2)
            [(0, Run); (1, Run); (0, Run); (0, Run); (1, Run)]%nat))
    (snd (sys_run (three_queued, readers 2)
            [(0, Run); (1, Run); (0, Run); (0, Run); (1, Run)]%nat) 0%nat) /\
  pc (snd (run (boot 4 10) (goto L93 (read_call 5)) [Run; Run])) = L99.
Proof.
  split.
  - apply (proj1 copies_guarded_without_signals).
    + unfold booted. conjuncts; evaluate.
    + intros j. left. reflexivity.
    + repeat constructor; discriminate.
  - apply (proj2 copies_guarded_without_signals (boot 4 10)).
    + vm_compute. reflexivity.
    + reflexivity.
Defined.


(** * More of the driver *)

(** ** Loading and unloading *)

(** Rebuilding a device number from its major number and the minor number
    it was made with gives it back. *)
Lemma MKDEV_MAJOR (ma mi : Z) : MKDEV (MAJOR (MKDEV ma mi)) mi = MKDEV ma mi.
Proof.
  unfold MKDEV, MAJOR, MINORBITS. apply Z.bits_inj'. intros n Hn.
  destruct (Z.lt_ge_cases n 32) as [H32|H32].
  - rewrite !Z.mod_pow2_bits_low by lia. rewrite !Z.lor_spec.
    destruct (Z.lt_ge_cases n 20) as [H20|H20].
    + rewrite !Z.shiftl_spec_low by lia. reflexivity.
    + rewrite (Z.shiftl_spec _ 20 n) by lia.
      rewrite Z.shiftr_spec by lia.
      replace (n - 20 + 20) with n by lia.
      rewrite Z.mod_pow2_bits_low by lia.
      rewrite Z.lor_spec.
      destruct (Z.testbit (Z.shiftl ma 20) n), (Z.testbit mi n); reflexivity.
  - rewrite !Z.mod_pow2_bits_high by lia. reflexivity.
Qed.

(** When [scull_init_module] succeeds. *)
Lemma init_succeeds_iff (region cdev a : Z) (g : globals) :
  snd (scull_init_module region cdev a g) = 0 <->
  0 <= region /\ cdev = 0 /\ a <> 0.
Proof.
  unfold scull_init_module.
  destruct (Z.ltb_spec region 0); cbn [snd].
  - split; [lia | intros (? & _); lia].
  - destruct (Z.eqb_spec cdev 0); cbn [negb snd].
    + destruct (Z.eqb_spec a 0); cbn [snd].
      * split; [unfold EFAULT; lia | intros (_ & _ & ?); contradiction].
      * split; auto.
    + split; [intros; contradiction | intros (_ & ? & _); contradiction].
Qed.

(** No statement of any call changes the two parameters or [orig]. *)
Lemma sys_run_config sched :
  forall s, same_config (fst s) (fst (sys_run s sched)).
Proof.
  induction sched as [|[i e] sched IH]; intros [g p]; cbn [sys_run].
  - repeat split.
  - unfold sys_step. cbn [fst snd].
    destruct (step g (p i) e) as [[g' t']|] eqn:E; [|apply IH].
    eapply same_config_trans; [eapply step_config; eauto | apply IH].
Qed.

Lemma module_init_result (region dyn cdev a : Z) (k : kernel) :
  snd (module_init region dyn cdev a k)
  = snd (scull_init_module region cdev a (vars k)).
Proof.
  unfold module_init.
  destruct (region <? 0); [reflexivity|].
  destruct (negb (cdev =? 0)); [reflexivity|].
  destruct (a =? 0); reflexivity.
Qed.

Lemma init_keeps_orig (region cdev a : Z) (g : globals) :
  orig (fst (scull_init_module region cdev a g)) = orig g.
Proof.
  unfold scull_init_module.
  destruct (region <? 0); [reflexivity|].
  destruct (negb (cdev =? 0)); [reflexivity|].
  destruct (a =? 0); reflexivity.
Qed.

(** What a successful [module_init] holds. *)
Lemma module_init_holds (region dyn cdev a : Z) (k : kernel) :
  snd (module_init region dyn cdev a k) = 0 ->
  regions (fst (module_init region dyn cdev a k)) = device dyn k :: regions k /\
  scull_cdev (fst (module_init region dyn cdev a k)) = Some (device dyn k) /\
  blocks (fst (module_init region dyn cdev a k)) = a :: blocks k /\
  MKDEV (scull_major (fst (module_init region dyn cdev a k)))
        (scull_minor (fst (module_init region dyn cdev a k))) = device dyn k /\
  vars (fst (module_init region dyn cdev a k))
    = fst (scull_init_module region cdev a (vars k)).
Proof.
  rewrite module_init_result, init_succeeds_iff. intros (Hr & -> & Ha).
  apply Z.ltb_ge in Hr. apply Z.eqb_neq in Ha.
  unfold module_init, device. rewrite Hr, Ha. cbn [Z.eqb negb fst].
  destruct (scull_major k =? 0); cbn; repeat split; auto.
  apply MKDEV_MAJOR.
Qed.

(** X1. A module that loaded and is then unloaded, whatever calls were made
    in between: [scull_cleanup_module] unregisters the very device number
    that was registered (also when the kernel chose the major number) and
    deletes the character device, but the FIFO obtained from kmalloc is
    still allocated, because the pointer it frees, [orig], was never set. *)
Theorem cleanup_releases_device_but_not_fifo
    (region dyn cdev a : Z) (k : kernel) (p : pool)
    (sched : list (nat * event)) :
  orig (vars k) = 0 ->
  ~ In (device dyn k) (regions k) ->
  snd (module_init region dyn cdev a k) = 0 ->
  let k1 := fst (module_init region dyn cdev a k) in
  let k2 :=
    scull_cleanup_module (with_vars (fst (sys_run (vars k1, p) sched)) k1) in
  regions k1 = device dyn k :: regions k /\
  scull_cdev k1 = Some (device dyn k) /\
  regions k2 = regions k /\
  scull_cdev k2 = None /\
  In a (blocks k2).
Proof.
  intros Ho Hfree Hok k1 k2.
  destruct (module_init_holds _ _ _ _ _ Hok) as (Hr & Hc & Hb & Hd & Hv).
  fold k1 in Hr, Hc, Hb, Hd, Hv.
  assert (Ho2 : orig (fst (sys_run (vars k1, p) sched)) = 0).
  { destruct (sys_run_config sched (vars k1, p)) as (_ & _ & Ho').
    cbn [fst] in Ho'. rewrite Ho', Hv, init_keeps_orig. exact Ho. }
  subst k2. unfold scull_cleanup_module, with_vars. cbn.
  rewrite Ho2, Hd, Hr, Hb. unfold kfree, unregister_chrdev_region.
  cbn [Z.eqb]. rewrite remove_cons, notin_remove by assumption.
  repeat split; auto. now left.
Qed.

Lemma cleanup_releases_device_but_not_fifo_witness :
  regions (scull_cleanup_module
             (with_vars
                (fst (sys_run
                        (vars (fst (module_init 0 250 0 fifo_array
                                      (unloaded 0 3 4 10))),
                         writer_and_readers)
                        [(0, Run); (0, Run); (1, Signal)]%nat))
                (fst (module_init 0 250 0 fifo_array (unloaded 0 3 4 10)))))
    = [] /\
  In fifo_array
     (blocks (scull_cleanup_module
                (with_vars
                   (fst (sys_run
                           (vars (fst (module_init 0 250 0 fifo_array
                                         (unloaded 0 3 4 10))),
                            writer_and_readers)
                           [(0, Run); (0, Run); (1, Signal)]%nat))
                   (fst (module_init 0 250 0 fifo_array
                           (unloaded 0 3 4 10)))))).
Proof.
  pose proof (cleanup_releases_device_but_not_fifo 0 250 0 fifo_array
                (unloaded 0 3 4 10) writer_and_readers
                [(0, Run); (0, Run); (1, Signal)]%nat) as H.
  cbv zeta in H.
  destruct H as (_ & _ & Hr & _ & Hb).
  - reflexivity.
  - intros [].
  - vm_compute. reflexivity.
  - split; [exact Hr | exact Hb].
Defined.

(** X2. When kmalloc fails, [scull_init_module] returns -EFAULT without
    undoing what it did before: the device number stays registered and the
    character device stays added, although the module did not load. *)
Theorem failed_kmalloc_leaves_device_registered
    (region dyn cdev : Z) (k : kernel) :
  0 <= region -> cdev = 0 ->
  snd (module_init region dyn cdev 0 k) = - EFAULT /\
  regions (fst (module_init region dyn cdev 0 k)) = device dyn k :: regions k /\
  scull_cdev (fst (module_init region dyn cdev 0 k)) = Some (device dyn k) /\
  blocks (fst (module_init region dyn cdev 0 k)) = blocks k /\
  vars (fst (module_init region dyn cdev 0 k))
    = printk "Out of memory" (vars k).
Proof.
  intros Hr ->. apply Z.ltb_ge in Hr.
  unfold module_init, scull_init_module, device. rewrite Hr.
  cbn [Z.eqb negb fst snd].
  destruct (scull_major k =? 0); cbn; repeat split; auto.
Qed.

Lemma failed_kmalloc_leaves_device_registered_witness :
  snd (module_init 0 250 0 0 (unloaded 0 3 4 10)) = - EFAULT /\
  regions (fst (module_init 0 250 0 0 (unloaded 0 3 4 10)))
    = [device 250 (unloaded 0 3 4 10)].
Proof.
  destruct (failed_kmalloc_leaves_device_registered 0 250 0 (unloaded 0 3 4 10))
    as (H1 & H2 & _); [lia | reflexivity |].
  split; [exact H1 | exact H2].
Defined.

(** X3. The two earlier failures of [scull_init_module] leave nothing held:
    when the registration fails its result is returned and nothing was
    taken; when [cdev_add] fails its result is returned after
    [scull_cleanup_module] has unregistered the device number again.  In
    both cases no block is allocated and the driver's variables are touched
    by [printk] only, so the mutex keeps the count it had. *)
Theorem failed_init_releases_everything
    (region dyn cdev a : Z) (k : kernel) :
  orig (vars k) = 0 ->
  ~ In (device dyn k) (regions k) ->
  region < 0 \/ cdev <> 0 ->
  snd (module_init region dyn cdev a k) = (if region <? 0 then region else cdev) /\
  snd (module_init region dyn cdev a k) <> 0 /\
  regions (fst (module_init region dyn cdev a k)) = regions k /\
  blocks (fst (module_init region dyn cdev a k)) = blocks k /\
  (0 <= region -> scull_cdev (fst (module_init region dyn cdev a k)) = None) /\
  same_but_log (vars (fst (module_init region dyn cdev a k))) (vars k).
Proof.
  intros Ho Hfree Hfail.
  unfold module_init, scull_init_module.
  destruct (Z.ltb_spec region 0) as [Hr|Hr]; cbn [fst snd].
  - repeat split; auto; lia.
  - destruct Hfail as [Hfail|Hfail]; [lia|].
    apply Z.eqb_neq in Hfail. rewrite Hfail. cbn [negb fst snd].
    apply Z.eqb_neq in Hfail.
    unfold scull_cleanup_module, unregister_chrdev_region, kfree, device in *.
    cbn -[MAJOR MKDEV remove]. rewrite Ho. cbn [Z.eqb].
    destruct (scull_major k =? 0); cbn [negb];
      rewrite ?MKDEV_MAJOR, remove_cons, notin_remove by assumption;
      repeat split; auto.
Qed.

Lemma failed_init_releases_everything_witness :
  snd (module_init 0 250 (-16) fifo_array (unloaded 0 3 4 10)) = -16 /\
  regions (fst (module_init 0 250 (-16) fifo_array (unloaded 0 3 4 10))) = [].
Proof.
  destruct (failed_init_releases_everything 0 250 (-16) fifo_array
              (unloaded 0 3 4 10)) as (H1 & _ & H2 & _).
  - reflexivity.
  - intros [].
  - right. discriminate.
  - split; [exact H1 | exact H2].
Defined.

(** ** Opening, closing and the log *)

Lemma same_but_log_sym g1 g2 : same_but_log g1 g2 -> same_but_log g2 g1.
Proof. unfold same_but_log. intuition congruence. Qed.

Lemma same_but_log_increment g1 g2 n p :
  same_but_log g1 g2 -> increment g1 n p = increment g2 n p.
Proof.
  intros (_ & Hs & _ & _ & Ho & _). apply increment_ext; congruence.
Qed.

(** A statement does the same in two states that differ in the log only. *)
Lemma step_log g1 g2 t e g1' t' :
  same_but_log g1 g2 ->
  step g1 t e = Some (g1', t') ->
  exists g2', step g2 t e = Some (g2', t') /\ same_but_log g1' g2'.
Proof.
  intros Hs H.
  pose proof (same_but_log_increment g1 g2 (t_count t) (start g1) Hs) as Has.
  pose proof (same_but_log_increment g1 g2 (t_count t) (end_ g1) Hs) as Hae.
  destruct Hs as (Hz & Hn & Hst & Hen & Ho & Hqe & Hqf & Hl & Hm & Hk).
  unfold step, scull_read, scull_write, down_or_log, down_interruptible,
    full_test in *.
  rewrite <- Hz, <- Hn, <- Hst, <- Hen, <- Hqe, <- Hqf, <- Hl, <- Hm.
  destruct (pc t); try discriminate;
    repeat match type of H with
           | context [match ?e with Run => _ | Signal => _ | Fault _ => _ end] =>
               destruct e
           | context [if ?b then _ else _] => destruct b
           | _ => progress (cbn [option_map] in H)
           end;
    try discriminate; injection H as <- <-; cbn [option_map];
    eexists; (split; [reflexivity|]); unfold same_but_log; cbn;
    repeat split; auto.
Qed.

Lemma run_log evs :
  forall g1 g2 t,
    same_but_log g1 g2 ->
    snd (run g1 t evs) = snd (run g2 t evs) /\
    same_but_log (fst (run g1 t evs)) (fst (run g2 t evs)).
Proof.
  induction evs as [|e evs IH]; intros g1 g2 t Hs; cbn [run fst snd]; auto.
  destruct (step g1 t e) as [[g1' t1]|] eqn:E1.
  - destruct (step_log _ _ _ _ _ _ Hs E1) as (g2' & -> & Hs'). now apply IH.
  - destruct (step g2 t e) as [[g2' t2]|] eqn:E2; [|now apply IH].
    destruct (step_log _ _ _ _ _ _ (same_but_log_sym _ _ Hs) E2)
      as (g1' & E & _). congruence.
Qed.

Lemma printk_same_but_log msg g : same_but_log (printk msg g) g.
Proof. repeat split. Qed.

Lemma same_but_log_trans g1 g2 g3 :
  same_but_log g1 g2 -> same_but_log g2 g3 -> same_but_log g1 g3.
Proof. unfold same_but_log. intuition congruence. Qed.

Lemma session_log ops :
  forall g1 g2,
    same_but_log g1 g2 ->
    snd (session g1 ops) = snd (serial g2 (calls_of ops)) /\
    same_but_log (fst (session g1 ops)) (fst (serial g2 (calls_of ops))).
Proof.
  induction ops as [|[| |c e] ops IH]; intros g1 g2 Hs;
    cbn [session calls_of serial fst snd]; auto;
    try (apply IH; eapply same_but_log_trans;
         [apply printk_same_but_log | exact Hs]).
  destruct (run_log (repeat e 12) g1 g2 (enter c) Hs) as (Ht & Hg).
    unfold finish. rewrite Ht.
    destruct (IH _ _ Hg) as (Hm & Hg'). rewrite Hm. auto.
Qed.

(** X4. [scull_open] and [scull_release] always return 0, and all they
    leave is a line in the log, which no read, write or ioctl ever looks
    at: a session of opens, closes, reads and writes moves exactly the bytes
    that its reads and writes alone would move, and leaves the driver in the
    same state but for the log. *)
Theorem open_and_release_are_invisible (g : globals) (ops : list op) :
  snd (scull_open g) = 0 /\
  snd (scull_release g) = 0 /\
  snd (session g ops) = outcomes g (calls_of ops) /\
  same_but_log (fst (session g ops)) (after g (calls_of ops)).
Proof.
  split; [reflexivity|]. split; [reflexivity|].
  apply session_log. repeat split.
Qed.

(** ** The driver after a successful initialisation *)

Lemma init_boots (region cdev a : Z) (g : globals) :
  snd (scull_init_module region cdev a g) = 0 ->
  booted (fst (scull_init_module region cdev a g)) /\
  start (fst (scull_init_module region cdev a g)) = a /\
  end_ (fst (scull_init_module region cdev a g)) = a.
Proof.
  rewrite init_succeeds_iff. intros (Hr & -> & Ha).
  apply Z.ltb_ge in Hr. apply Z.eqb_neq in Ha.
  unfold scull_init_module. rewrite Hr, Ha. cbn. repeat split.
Qed.

(** X5. Mutual exclusion.  After a successful initialisation, whatever
    calls are under way and under every schedule in which no wait is
    interrupted, at most one caller stands between a successful
    [down_interruptible(&lock)] and the [up(&lock)] that follows it, and the
    count of the mutex is 0 while one does and 1 while none does. *)
Theorem mutex_excludes_after_init (region cdev a : Z) (g0 : globals)
    (p : pool) (sched : list (nat * event)) :
  snd (scull_init_module region cdev a g0) = 0 ->
  (forall k, fresh (p k)) ->
  Forall (fun ie => no_signal (snd ie)) sched ->
  let s := sys_run (fst (scull_init_module region cdev a g0), p) sched in
  (forall i j, held (pc (snd s i)) = 1 -> held (pc (snd s j)) = 1 -> i = j) /\
  (forall i, held (pc (snd s i)) = 1 -> count (lock (fst s)) = 0) /\
  (count (lock (fst s)) = 0 \/ count (lock (fst s)) = 1).
Proof.
  intros Hok Hp Hs. cbv zeta.
  destruct (init_boots _ _ _ _ Hok) as (Hb & _).
  pose proof (sys_inv_run sched Hs _ (sys_inv_init _ p Hb Hp))
    as (_ & _ & Hl & Hfree & Hu & _).
  split; [exact Hu|].
  match type of Hl with
  | 0 <= ?c <= 1 =>
      change ((forall i, held (pc (snd (sys_run
                 (fst (scull_init_module region cdev a g0), p) sched) i)) = 1 ->
               c = 0) /\ (c = 0 \/ c = 1));
      split; [|lia];
      intros i Hi; destruct (Z.eq_dec c 1) as [E|E]; [|lia]
  end.
  specialize (Hfree E i).
  assert (C : 1 = 0) by (etransitivity; [symmetry; exact Hi | exact Hfree]).
  discriminate C.
Qed.

Lemma mutex_excludes_after_init_witness :
  count (lock (fst (sys_run (boot 4 10, writer_and_readers)
                      [(0, Run); (0, Run); (1, Run); (2, Run)]%nat))) = 0.
Proof.
  destruct (mutex_excludes_after_init 0 0 fifo_array
              (module_load 4 10 blank) writer_and_readers
              [(0, Run); (0, Run); (1, Run); (2, Run)]%nat)
    as (_ & H & _).
  - reflexivity.
  - intros [|k]; [right | left]; reflexivity.
  - repeat constructor; discriminate.
  - apply (H 0%nat). vm_compute. reflexivity.
Defined.

(** One statement of one caller, as far as the two flow-control semaphores
    and the waits on them go. *)
Lemma step_no_wake g t e g' t' :
  no_signal e ->
  count (queue_empty g) = 0 /\ count (queue_full g) = 0 ->
  pc t <> L93 /\ pc t <> L144 ->
  step g t e = Some (g', t') ->
  pc t' <> L93 /\ pc t' <> L144.
Proof.
  unfold no_signal. intros He (Hqe & Hqf) (H93 & H144) H.
  break_step H; cbn; try (split; discriminate); try congruence;
    repeat match goal with
           | H : (_ <? _) = true |- _ => apply Z.ltb_lt in H
           end; lia.
Qed.

(** X6. Lost wake-ups.  In a driver whose flow-control semaphores stand at
    0, as initialisation leaves them, they stay at 0 under every schedule,
    signals included: no call ever posts [queue_empty] or [queue_full].  So
    a caller that went to sleep on one of them gets past its wait only if a
    signal interrupts it, whatever the other callers read or write and
    whatever signals they receive. *)
Theorem sleeper_wakes_only_by_signal (g : globals) (p : pool)
    (sched : list (nat * event)) (i : nat) :
  count (queue_empty g) = 0 /\ count (queue_full g) = 0 ->
  fresh (p i) ->
  Forall (fun ie => fst ie = i -> no_signal (snd ie)) sched ->
  count (queue_empty (fst (sys_run (g, p) sched))) = 0 /\
  count (queue_full (fst (sys_run (g, p) sched))) = 0 /\
  pc (snd (sys_run (g, p) sched) i) <> L93 /\
  pc (snd (sys_run (g, p) sched) i) <> L144.
Proof.
  intros Hq Hf Hs.
  assert (Hpc : pc (p i) <> L93 /\ pc (p i) <> L144)
    by (destruct Hf as [-> | ->]; split; discriminate).
  clear Hf. revert g p Hq Hpc.
  induction Hs as [|[j e] sched Hje _ IH]; intros g p Hq Hpc; cbn [sys_run].
  - tauto.
  - unfold sys_step. cbn [fst snd] in *.
    destruct (step g (p j) e) as [[g' t']|] eqn:E.
    + assert (Hq' := flow_step _ _ _ _ _ Hq E).
      apply IH; auto.
      unfold update. destruct (Nat.eqb_spec i j) as [->|Hij]; auto.
      apply (step_no_wake g (p j) e g' t'); auto.
    + apply IH; auto.
Qed.

Lemma sleeper_wakes_only_by_signal_witness :
  pc (snd (sys_run (boot 4 10, writer_and_readers)
             [(1, Run); (1, Run); (1, Run); (0, Run); (0, Run); (0, Run);
              (0, Run); (0, Run); (0, Run); (0, Run); (0, Run); (1, Run);
              (2, Signal)]%nat) 1%nat) <> L93.
Proof.
  destruct (sleeper_wakes_only_by_signal (boot 4 10) writer_and_readers
              [(1, Run); (1, Run); (1, Run); (0, Run); (0, Run); (0, Run);
               (0, Run); (0, Run); (0, Run); (0, Run); (0, Run); (1, Run);
               (2, Signal)]%nat 1%nat) as (_ & _ & H & _).
  - split; reflexivity.
  - left. reflexivity.
  - repeat constructor; cbn; intros; discriminate.
  - exact H.
Defined.

(** ** Sleeping and returning *)

(** X7. A call offered the same event at each of its statements has, after
    twelve of them, either returned or come to stand before a
    [down_interruptible] whose semaphore has no count left; the latter only
    when no signal is pending.  In particular a call to which a signal is
    pending always returns. *)
Theorem call_returns_or_waits (g : globals) (c : call) (e : event) :
  (exists v, returned (snd (finish g (enter c) e)) = Some v) \/
  (no_signal e /\
   waiting (fst (finish g (enter c) e)) (snd (finish g (enter c) e))).
Proof.
  assert (H := finish_settles g c e).
  destruct (finish g (enter c) e) as [g' t']. cbn [fst snd] in *.
  unfold returned, waiting, no_signal.
  unfold step, scull_read, scull_write, down_or_log, down_interruptible in H.
  destruct (pc t');
    first
      [ discriminate H
      | destruct e; discriminate H
      | left; eexists; reflexivity
      | right;
        match type of H with
        | context [0 <? ?x] => destruct (Z.ltb_spec 0 x)
        end; [discriminate H|];
        destruct e; first [discriminate H | split; [discriminate | lia]] ].
Qed.

Lemma asleep_on_queue_empty g t n :
  pc t = L90 -> count (queue_empty g) <= 0 ->
  run g t (repeat Run n) = (g, t).
Proof.
  intros Hpc Hq. apply run_stuck.
  unfold step, scull_read. rewrite Hpc. unfold down_or_log, down_interruptible.
  destruct (Z.ltb_spec 0 (count (queue_empty g))); [lia | reflexivity].
Qed.

(** X8. With the mutex free and [queue_empty] not posted, a read goes to
    sleep exactly when [start == end], whatever the count it asks for; it
    then stands at line 90 having released the mutex, and has touched
    neither the cursors nor the memory. *)
Theorem read_sleeps_iff_empty (g : globals) (n : Z) :
  0 < count (lock g) -> count (queue_empty g) <= 0 ->
  (returned (snd (finish g (read_call n) Run)) = None <-> start g = end_ g) /\
  (start g = end_ g ->
   pc (snd (finish g (read_call n) Run)) = L90 /\
   count (lock (fst (finish g (read_call n) Run))) = count (lock g) /\
   start (fst (finish g (read_call n) Run)) = start g /\
   end_ (fst (finish g (read_call n) Run)) = end_ g /\
   kmem (fst (finish g (read_call n) Run)) = kmem g).
Proof.
  intros Hl Hq.
  assert (Hsleep : start g = end_ g ->
            finish g (read_call n) Run
            = (set_lock (up {| count := count (lock g) - 1 |})
                 (set_lock {| count := count (lock g) - 1 |} g),
               goto L90 (goto L89 (goto L87 (read_call n))))).
  { intros He. apply Z.ltb_lt in Hl. apply Z.eqb_eq in He.
    unfold finish.
    change (repeat Run 12) with (Run :: Run :: Run :: repeat Run 9).
    cbn [run]. unfold step at 1. cbn [pc read_call]. unfold scull_read at 1.
    cbn [pc read_call].
    unfold down_or_log, down_interruptible. rewrite Hl.
    cbn -[repeat run]. rewrite He. cbn -[repeat run].
    apply asleep_on_queue_empty; auto. }
  split.
  - split.
    + intros Hnone. destruct (Z.eq_dec (start g) (end_ g)) as [|Hne]; auto.
      change (read_call n) with (enter (RD n)) in Hnone.
      rewrite (finish_ready g (RD n)) in Hnone; [discriminate|].
      split; auto.
    + intros He. rewrite (Hsleep He). reflexivity.
  - intros He. rewrite (Hsleep He). cbn. repeat split; lia.
Qed.

Lemma read_sleeps_iff_empty_witness :
  pc (snd (finish (boot 4 10) (read_call 5) Run)) = L90.
Proof.
  destruct (read_sleeps_iff_empty (boot 4 10) 5) as [_ H].
  - reflexivity.
  - discriminate.
  - apply H. evaluate.
Defined.

(** ** The mutex under signals *)

Lemma mutex_inv_step l0 g t e g' t' :
  any_event e -> mutex_inv l0 g t -> step g t e = Some (g', t') ->
  mutex_inv l0 g' t'.
Proof.
  unfold mutex_inv. intros _ Hi H.
  break_step H; cbn in Hi |- *; lia.
Qed.

(** X14. Whatever happens to a call (signals, failed copies), when it has
    returned the count of the mutex is not below the one it found, and at
    most two above: every path executes [up(&lock)] once for each
    [down_interruptible(&lock)] it went past, taken or not. *)
Theorem returned_call_never_lowers_mutex (g : globals) (c : call)
    (evs : list event) (v : Z) :
  returned (snd (run g (enter c) evs)) = Some v ->
  count (lock g) <= count (lock (fst (run g (enter c) evs)))
  <= count (lock g) + 2.
Proof.
  intros Hv.
  assert (Hi : mutex_inv (count (lock g)) (fst (run g (enter c) evs))
                 (snd (run g (enter c) evs))).
  { apply (run_invariant any_event); [apply mutex_inv_step | apply Forall_any |].
    unfold mutex_inv. destruct c; cbn; lia. }
  unfold mutex_inv, returned in *.
  destruct (pc (snd (run g (enter c) evs))); try discriminate Hv.
  cbn in Hi. lia.
Qed.

Lemma returned_call_never_lowers_mutex_witness :
  count (lock (boot 4 10))
  <= count (lock (fst (run (boot 4 10) (enter (RD 5)) (repeat Signal 12))))
  <= count (lock (boot 4 10)) + 2.
Proof.
  apply (returned_call_never_lowers_mutex (boot 4 10) (RD 5)
           (repeat Signal 12) 5).
  vm_compute. reflexivity.
Defined.

(** ** The ring the cursors walk *)

(** X10. A cursor that lies between [orig] and [orig + scull_fifo_size],
    both included, stays there, and [n] iterations of the increment loop
    add [n] to its offset modulo [scull_fifo_size + 1]. *)
Theorem cursor_walks_size_plus_one_positions (g : globals) (p : Z) (n : nat) :
  0 <= scull_fifo_size g ->
  orig g <= p <= orig g + scull_fifo_size g ->
  advance g n p
  = orig g + (p - orig g + Z.of_nat n) mod (scull_fifo_size g + 1).
Proof.
  intros Hs. revert p. induction n as [|n IH]; intros p Hp.
  - cbn [advance]. rewrite Z.add_0_r, Z.mod_small; lia.
  - cbn [advance]. unfold bump.
    destruct (Z.geb_spec (p - orig g) (scull_fifo_size g)).
    + rewrite IH by lia. f_equal.
      replace (p - orig g + Z.of_nat (S n))
        with (Z.of_nat n + 1 * (scull_fifo_size g + 1)) by lia.
      rewrite Z.mod_add by lia. f_equal. lia.
    + rewrite IH by lia. do 2 f_equal. lia.
Qed.

Lemma cursor_walks_size_plus_one_positions_witness :
  advance (based 8 8) 9 fifo_array
  = orig (based 8 8)
    + (fifo_array - orig (based 8 8) + Z.of_nat 9)
      mod (scull_fifo_size (based 8 8) + 1).
Proof.
  apply (cursor_walks_size_plus_one_positions (based 8 8) fifo_array 9).
  - cbn. lia.
  - cbn. lia.
Defined.

(** ** What each side leaves alone *)

Lemma read_step_frame g t e g' t' :
  in_read (pc t) -> step g t e = Some (g', t') ->
  (in_read (pc t') \/ exists v, pc t' = Ret v) /\
  kmem g' = kmem g /\ end_ g' = end_ g /\
  count (queue_empty g') <= count (queue_empty g).
Proof.
  intros Hr H. break_step H; cbn in Hr |- *; try contradiction;
    repeat match goal with
           | H : (_ <? _) = true |- _ => apply Z.ltb_lt in H
           end;
    (split; [first [left; exact I | right; eexists; reflexivity]|]);
    repeat split; lia.
Qed.

Lemma write_step_frame g t e g' t' :
  in_write (pc t) -> step g t e = Some (g', t') ->
  (in_write (pc t') \/ exists v, pc t' = Ret v) /\
  start g' = start g /\
  count (queue_full g') <= count (queue_full g).
Proof.
  intros Hr H. break_step H; cbn in Hr |- *; try contradiction;
    repeat match goal with
           | H : (_ <? _) = true |- _ => apply Z.ltb_lt in H
           end;
    (split; [first [left; exact I | right; eexists; reflexivity]|]);
    repeat split; lia.
Qed.

(** X11. Readers alone, however many and however scheduled, signals and
    failed copies included, never change a byte of kernel memory, never
    move [end], and never post [queue_empty]. *)
Theorem readers_leave_the_data_alone (g : globals) (p : pool)
    (sched : list (nat * event)) :
  all_readers p ->
  kmem (fst (sys_run (g, p) sched)) = kmem g /\
  end_ (fst (sys_run (g, p) sched)) = end_ g /\
  count (queue_empty (fst (sys_run (g, p) sched))) <= count (queue_empty g).
Proof.
  unfold all_readers.
  revert g p. induction sched as [|[j e] sched IH]; intros g p Hp;
    cbn [sys_run].
  - cbn. repeat split; lia.
  - unfold sys_step. cbn [fst snd].
    destruct (step g (p j) e) as [[g' t']|] eqn:E; [|apply IH, Hp].
    destruct (Hp j) as [Hj | [v Hj]].
    + destruct (read_step_frame _ _ _ _ _ Hj E) as (Ht & Hk & He & Hq).
      destruct (IH g' (update p j t')) as (Hk' & He' & Hq').
      * intros i. unfold update. destruct (Nat.eqb i j); auto.
      * rewrite Hk', He'. repeat split; auto; lia.
    + unfold step in E. rewrite Hj in E. discriminate.
Qed.

Lemma readers_leave_the_data_alone_witness :
  kmem (fst (sys_run (three_queued, readers 2)
               [(0, Run); (1, Signal); (0, Run); (0, Run); (1, Run);
                (0, Fault [])]%nat))
  = kmem three_queued.
Proof.
  apply (readers_leave_the_data_alone three_queued (readers 2)).
  intros i. left. exact I.
Defined.

(** X12. Writers alone never move [start], and never post [queue_full]. *)
Theorem writers_leave_start_alone (g : globals) (p : pool)
    (sched : list (nat * event)) :
  all_writers p ->
  start (fst (sys_run (g, p) sched)) = start g /\
  count (queue_full (fst (sys_run (g, p) sched))) <= count (queue_full g).
Proof.
  unfold all_writers.
  revert g p. induction sched as [|[j e] sched IH]; intros g p Hp;
    cbn [sys_run].
  - cbn. repeat split; lia.
  - unfold sys_step. cbn [fst snd].
    destruct (step g (p j) e) as [[g' t']|] eqn:E; [|apply IH, Hp].
    destruct (Hp j) as [Hj | [v Hj]].
    + destruct (write_step_frame _ _ _ _ _ Hj E) as (Ht & Hs & Hq).
      destruct (IH g' (update p j t')) as (Hs' & Hq').
      * intros i. unfold update. destruct (Nat.eqb i j); auto.
      * rewrite Hs'. repeat split; auto; lia.
    + unfold step in E. rewrite Hj in E. discriminate.
Qed.

Lemma writers_leave_start_alone_witness :
  start (fst (sys_run (boot 4 10, fun _ => write_call AB)
                [(0, Run); (1, Signal); (0, Run); (0, Run); (1, Run);
                 (0, Run); (0, Run)]%nat))
  = start (boot 4 10).
Proof.
  apply (writers_leave_start_alone (boot 4 10) (fun _ => write_call AB)).
  intros i. left. exact I.
Defined.

(** ** Decoding the control command *)

(** X13. [scull_ioctl] answers one command.  A command word of another
    type, or with a number above the maximum, gets -ENOTTY whatever the
    access check would say; every command word other than the query gets
    -ENOTTY or -EFAULT; and the query, when it carries the driver's type, a
    number within the maximum and no direction bits, gets the element size
    whatever its argument and whatever the access check says. *)
Theorem ioctl_answers_one_command
    (MAGIC MAXNR GETELEMSZ : Z) (access_ok : Z -> Z -> Z -> bool)
    (cmd arg : Z) (g : globals) :
  (_IOC_TYPE cmd <> MAGIC \/ _IOC_NR cmd > MAXNR ->
   snd (scull_ioctl MAGIC MAXNR GETELEMSZ access_ok cmd arg g) = - ENOTTY) /\
  (cmd <> GETELEMSZ ->
   snd (scull_ioctl MAGIC MAXNR GETELEMSZ access_ok cmd arg g) = - ENOTTY \/
   snd (scull_ioctl MAGIC MAXNR GETELEMSZ access_ok cmd arg g) = - EFAULT) /\
  (_IOC_TYPE GETELEMSZ = MAGIC -> _IOC_NR GETELEMSZ <= MAXNR ->
   _IOC_DIR GETELEMSZ = 0 ->
   snd (scull_ioctl MAGIC MAXNR GETELEMSZ access_ok GETELEMSZ arg g)
   = scull_fifo_elemsz g).
Proof.
  unfold scull_ioctl. split; [|split].
  - intros [H | H].
    + destruct (Z.eqb_spec (_IOC_TYPE cmd) MAGIC); [contradiction | reflexivity].
    + destruct (_IOC_TYPE cmd =? MAGIC); cbn [negb]; auto.
      destruct (Z.gtb_spec (_IOC_NR cmd) MAXNR); [reflexivity | lia].
  - intros Hc.
    destruct (_IOC_TYPE cmd =? MAGIC); cbn [negb]; [|left; reflexivity].
    destruct (_IOC_NR cmd >? MAXNR); [left; reflexivity|].
    destruct (Z.eqb_spec cmd GETELEMSZ); [contradiction|].
    match goal with
    | |- context [if ?b then (_, - EFAULT) else _] => destruct b
    end; [right | left]; reflexivity.
  - intros Ht Hn Hd. rewrite Ht, Z.eqb_refl. cbn [negb].
    destruct (Z.gtb_spec (_IOC_NR GETELEMSZ) MAXNR); [lia|].
    rewrite Hd. cbn. now rewrite Z.eqb_refl.
Qed.

(** ** Data through the FIFO *)

Lemma finish_lock g c :
  count (lock (fst (finish g (enter c) Run)))
  = count (lock g) - held (pc (snd (finish g (enter c) Run))).
Proof.
  unfold finish. rewrite lock_summary.
  - destruct c; cbn [enter read_call write_call pc held]; lia.
  - apply Forall_repeat. discriminate.
Qed.

(** A read that finds the mutex free and the FIFO not empty. *)
Lemma read_done g n :
  ready (RD n) g -> 0 <= n <= INT_MAX ->
  outcome (RD n) (snd (finish g (enter (RD n)) Run))
  = Got (load (kmem g) (start g) (Z.to_nat n)) /\
  start (fst (finish g (enter (RD n)) Run)) = advance g (Z.to_nat n) (start g) /\
  end_ (fst (finish g (enter (RD n)) Run)) = end_ g /\
  kmem (fst (finish g (enter (RD n)) Run)) = kmem g /\
  count (lock (fst (finish g (enter (RD n)) Run))) = count (lock g) /\
  same_config g (fst (finish g (enter (RD n)) Run)).
Proof.
  intros Hr Hn.
  assert (Hv := finish_ready g (RD n) Hr).
  assert (Hl := finish_lock g (RD n)).
  assert (Hi := read_summary g n (repeat Run 12)).
  fold (finish g (read_call n) Run) in Hi.
  change (read_call n) with (enter (RD n)) in Hi.
  unfold outcome. rewrite Hv. cbn [requested] in *.
  unfold returned in Hv. unfold read_inv in Hi.
  destruct (pc (snd (finish g (enter (RD n)) Run))); try discriminate Hv.
  injection Hv as ->. cbn [held] in Hl.
  destruct Hi as (Hc & _ & Hk & He & _ & [(Hv & _) | (_ & Hs & Hu)]);
    [unfold EFAULT in Hv; lia|].
  destruct (Z.eqb_spec n (- EFAULT)); [unfold EFAULT in *; lia|].
  rewrite increment_small in Hs by lia.
  rewrite Hu. repeat split; auto; try lia; apply Hc.
Qed.

(** X9. Round trip.  On an empty FIFO with the mutex free, a write of
    data that fits the element size and lies within the first
    [scull_fifo_size] bytes of the block that kmalloc handed out (and short
    of the wrap), followed by a read of as many bytes, hands the reader
    exactly the bytes written; the FIFO is empty again and the mutex free as
    before. *)
Theorem write_then_read_round_trip (g : globals) (d : list byte) :
  0 < count (lock g) ->
  start g = end_ g ->
  d <> [] ->
  Z.of_nat (length d) <= size_t_of_int (scull_fifo_elemsz g) ->
  scull_fifo_size g <= INT_MAX ->
  in_fifo g (end_ g) (Z.of_nat (length d)) ->
  end_ g - orig g + Z.of_nat (length d) <= scull_fifo_size g ->
  outcomes g [(WR d, Run); (RD (Z.of_nat (length d)), Run)] = [Put d; Got d] /\
  start (after g [(WR d, Run); (RD (Z.of_nat (length d)), Run)])
  = end_ (after g [(WR d, Run); (RD (Z.of_nat (length d)), Run)]) /\
  end_ (after g [(WR d, Run); (RD (Z.of_nat (length d)), Run)])
  = end_ g + Z.of_nat (length d) /\
  count (lock (after g [(WR d, Run); (RD (Z.of_nat (length d)), Run)]))
  = count (lock g).
Proof.
  intros Hl He Hd Hfit Hint (base & sz & _ & Hbase & _ & Hcap) Hlin.
  assert (Hlen : 0 < Z.of_nat (length d)) by (destruct d; [congruence | cbn; lia]).
  assert (Hacc : accepted g d = Z.of_nat (length d)).
  { unfold accepted. destruct (Z.gtb_spec (Z.of_nat (length d))
                                 (size_t_of_int (scull_fifo_elemsz g))); lia. }
  (* the write *)
  assert (Hw : returned (snd (finish g (enter (WR d)) Run))
               = Some (Z.of_nat (length d))).
  { rewrite finish_ready; [cbn [requested]; now rewrite Hacc|].
    split; auto. unfold full_test.
    destruct (Z.eqb_spec (end_ g - start g) 1); [lia|].
    destruct (Z.eqb_spec (end_ g - start g) (scull_fifo_size g)); [lia|].
    reflexivity. }
  assert (Hwl := finish_lock g (WR d)).
  assert (Hwi := write_summary (fun _ => True) g d (repeat Run 12)
                   (Forall_faults_any _)).
  fold (finish g (write_call d) Run) in Hwi.
  change (write_call d) with (enter (WR d)) in Hwi.
  unfold outcomes, after. cbn [serial fst snd].
  set (r1 := finish g (enter (WR d)) Run) in *.
  unfold returned in Hw. unfold write_inv in Hwi.
  destruct (pc (snd r1)) eqn:Hpc1; try discriminate Hw.
  injection Hw as ->.
  destruct Hwi as (Hcfg & _ & Hs1 & _ & [(Hv & _) | (_ & Hk1 & He1)]);
    [unfold EFAULT in Hv; lia|].
  rewrite Hacc in Hk1, He1. rewrite Nat2Z.id in Hk1.
  rewrite increment_small, Nat2Z.id, advance_linear in He1 by lia.
  cbn [held] in Hwl. clearbody r1.
  (* the read *)
  destruct (read_done (fst r1) (Z.of_nat (length d)))
    as (Ho2 & Hs2 & He2 & Hk2 & Hl2 & Hcfg2); [split; [lia | cbn; lia] | lia |].
  rewrite Nat2Z.id in Ho2, Hs2.
  destruct Hcfg as (_ & Hsz1 & Ho1).
  rewrite (advance_ext g (fst r1)) in Hs2 by auto.
  rewrite advance_linear in Hs2 by lia.
  split; [|split; [|split]].
  - unfold outcome at 1. unfold returned. rewrite Hpc1, Ho2.
    destruct (Z.eqb_spec (Z.of_nat (length d)) (- EFAULT));
      [unfold EFAULT in *; lia|].
    rewrite Nat2Z.id, Hk1, Hs1, He, !firstn_all, load_store.
    reflexivity.
  - lia.
  - lia.
  - lia.
Qed.

Lemma write_then_read_round_trip_witness :
  outcomes (boot 4 10) [(WR ABC, Run); (RD (Z.of_nat (length ABC)), Run)]
  = [Put ABC; Got ABC].
Proof.
  apply (write_then_read_round_trip (boot 4 10) ABC).
  - reflexivity.
  - evaluate.
  - discriminate.
  - cbn. discriminate.
  - vm_compute. discriminate.
  - exists fifo_array, 120. split; [left; vm_compute; reflexivity |].
    vm_compute. repeat split; discriminate.
  - apply Z.leb_le. evaluate.
Defined.

(** X15. Reads compose.  With the mutex free, a read of [a] bytes that
    does not leave [start] on [end], followed by a read of [b] bytes, hands
    over the same bytes and leaves [start] at the same place as one read of
    [a + b] bytes, when those [a + b] bytes lie within the first
    [scull_fifo_size] bytes of the block that kmalloc handed out (and short
    of the wrap). *)
Theorem reads_compose (g : globals) (a b : Z) :
  0 < count (lock g) ->
  0 <= a -> 0 <= b ->
  start g <> end_ g -> start g + a <> end_ g ->
  scull_fifo_size g <= INT_MAX ->
  in_fifo g (start g) (a + b) ->
  start g - orig g + a + b <= scull_fifo_size g ->
  bytes_read (outcomes g [(RD a, Run); (RD b, Run)])
  = bytes_read (outcomes g [(RD (a + b), Run)]) /\
  start (after g [(RD a, Run); (RD b, Run)])
  = start (after g [(RD (a + b), Run)]) /\
  start (after g [(RD (a + b), Run)]) = start g + a + b.
Proof.
  intros Hl Ha Hb Hne Hne' Hint (base & sz & _ & Hbase & _ & Hcap) Hlin.
  destruct (read_done g a) as (Ho1 & Hs1 & He1 & Hk1 & Hl1 & Hc1 & Hz1 & Hg1);
    [split; auto | lia |].
  rewrite advance_linear in Hs1 by lia. rewrite Z2Nat.id in Hs1 by lia.
  destruct (read_done (fst (finish g (enter (RD a)) Run)) b)
    as (Ho2 & Hs2 & _);
    [split; [rewrite Hl1; exact Hl | cbn [cursor]; rewrite Hs1, He1; exact Hne']
    | lia |].
  destruct (read_done g (a + b)) as (Ho & Hs & _); [split; auto | lia |].
  unfold outcomes, after. cbn [serial fst snd bytes_read].
  rewrite Ho1, Ho2, Ho, Hs2, Hs, Hk1, Hs1.
  rewrite (advance_ext g _ _ Hg1 Hz1).
  rewrite Z2Nat.inj_add, load_app by lia.
  rewrite !advance_linear by lia.
  rewrite Z2Nat.id by lia. rewrite !app_nil_r.
  repeat split; lia.
Qed.

Lemma reads_compose_witness :
  bytes_read (outcomes three_queued [(RD 1, Run); (RD 2, Run)])
  = bytes_read (outcomes three_queued [(RD (1 + 2), Run)]).
Proof.
  apply (reads_compose three_queued 1 2).
  - reflexivity.
  - lia.
  - lia.
  - apply Z.eqb_neq. evaluate.
  - apply Z.eqb_neq. evaluate.
  - vm_compute. discriminate.
  - exists fifo_array, 120. split; [left; vm_compute; reflexivity |].
    vm_compute. repeat split; discriminate.
  - apply Z.leb_le. evaluate.
Defined.

(** X16. A negative element size.  The test of line 131 compares the
    [size_t] count with the [int] element size, which is converted to
    [size_t]: a negative element size becomes a huge bound, so no write is
    truncated.  A write of up to [INT_MAX] bytes that does not fail returns
    the whole length; all of the data stands at the old [end], no other
    byte of the memory has changed, and [end] has gone through that many
    iterations of the increment loop, which short of the wrap puts it that
    many bytes further. *)
Theorem negative_elemsz_never_truncates (g : globals) (data : list byte)
    (evs : list event) (v : Z) :
  - 2 ^ 31 <= scull_fifo_elemsz g < 0 ->
  Z.of_nat (length data) <= INT_MAX ->
  returned (snd (run g (write_call data) evs)) = Some v ->
  v <> - EFAULT ->
  v = Z.of_nat (length data) /\
  load (kmem (fst (run g (write_call data) evs))) (end_ g) (length data)
  = data /\
  (forall x, x < end_ g \/ end_ g + Z.of_nat (length data) <= x ->
             kmem (fst (run g (write_call data) evs)) x = kmem g x) /\
  end_ (fst (run g (write_call data) evs)) = advance g (length data) (end_ g) /\
  (end_ g - orig g + Z.of_nat (length data) <= scull_fifo_size g ->
   end_ (fst (run g (write_call data) evs))
   = end_ g + Z.of_nat (length data)).
Proof.
  intros He Hlen Hret Hv.
  assert (Hacc : accepted g data = Z.of_nat (length data)).
  { unfold accepted, size_t_of_int.
    replace (scull_fifo_elemsz g mod 2 ^ 64) with (scull_fifo_elemsz g + 2 ^ 64).
    - unfold INT_MAX in Hlen.
      destruct (Z.gtb_spec (Z.of_nat (length data))
                  (scull_fifo_elemsz g + 2 ^ 64)); lia.
    - apply Z.mod_unique with (q := -1); lia. }
  pose proof (write_summary _ g data evs (Forall_faults_any evs))
    as (_ & _ & _ & Hpc).
  unfold returned in Hret.
  destruct (pc (snd (run g (write_call data) evs))); try discriminate.
  injection Hret as ->.
  destruct Hpc as (_ & [(Hv' & _) | (Hv' & Hm & Hend)]); [contradiction|].
  rewrite Hacc in Hv', Hm, Hend.
  rewrite increment_small in Hend by lia.
  rewrite Nat2Z.id, ?firstn_all in *.
  repeat split; auto.
  - rewrite Hm. apply load_store.
  - intros x [Hx | Hx]; rewrite Hm.
    + now apply store_below.
    + now apply store_above.
  - intros Hw. rewrite Hend, advance_linear; lia.
Qed.

Lemma negative_elemsz_never_truncates_witness :
  6 = Z.of_nat (length six) /\
  load (kmem (fst (run (boot (-1) 10) (write_call six) (repeat Run 12))))
       (end_ (boot (-1) 10)) (length six)
  = six /\
  end_ (fst (run (boot (-1) 10) (write_call six) (repeat Run 12)))
  = end_ (boot (-1) 10) + Z.of_nat (length six).
Proof.
  destruct (negative_elemsz_never_truncates (boot (-1) 10) six
              (repeat Run 12) 6) as (Hv & Hload & _ & _ & Hend).
  - vm_compute. split; [discriminate | reflexivity].
  - vm_compute. discriminate.
  - vm_compute. reflexivity.
  - discriminate.
  - split; [exact Hv | split; [exact Hload |]].
    apply Hend. apply Z.leb_le. vm_compute. reflexivity.
Defined.
